(** * Byte views and byte buffers of [native/src/base/misc.hpp]

    A shallow embedding of the [byte_view] / [byte_data] / [byte_array] /
    [heap_data] hierarchy: descriptors are (reference, length) records over a
    flat byte-addressed memory, [size_t] arithmetic wraps at 2^64, and the
    allocator is threaded explicitly as a state. *)

From Stdlib Require Import ZArith List Lia Bool.
From Stdlib Require Import Strings.String Strings.Byte.
From stdpp Require Import base list.
Import ListNotations.

Local Open Scope Z_scope.

(** ** Machine data *)

(** Addresses; [nullptr] is address zero. *)
Definition ptr := Z.
Definition nullptr : ptr := 0.

(** [size_t] is 64 bits wide on the supported targets. *)
Definition SIZE_MAX : Z := 2 ^ 64 - 1.
Definition size_wrap (n : Z) : Z := n mod 2 ^ 64.
Definition size_add (a b : Z) : Z := size_wrap (a + b).

(** Flat memory: every address holds one byte. *)
Definition mem := ptr -> byte.
Definition NUL : byte := x00.

(** [memset(p, b, n)] and a single store through a [uint8_t *]. *)
Definition poke (m : mem) (p : ptr) (b : byte) : mem :=
  fun q => if Z.eqb q p then b else m q.

Fixpoint store_bytes (m : mem) (p : ptr) (bs : list byte) : mem :=
  match bs with
  | [] => m
  | b :: bs' => store_bytes (poke m p b) (p + 1) bs'
  end.


(** The [n] bytes found at [p]. *)
Definition load_bytes (m : mem) (p : ptr) (n : Z) : list byte :=
  map (fun i => m (p + Z.of_nat i)) (seq 0 (Z.to_nat n)).

(** ** Text arguments *)

(** [std::string_view]: [data()] and [length()]. *)
Record string_view := mk_string_view { sv_data : ptr; sv_length : Z }.

(** [std::string]: [data()] and [length()]. *)
Record std_string := mk_std_string { str_data : ptr; str_length : Z }.

(** [std::vector<uint8_t>]: [data()] and [size()]. *)
Record byte_vector := mk_byte_vector { vec_data : ptr; vec_size : Z }.

(** Implicit conversion [std::string -> std::string_view]. *)
Definition string_view_of_string (s : std_string) : string_view :=
  {| sv_data := str_data s; sv_length := str_length s |}.

(** [std::string_view] built from a C string measures the text up to its
    terminator.
    The scan is bounded by [fuel]; [None] means no terminator was met. *)
Fixpoint strlen (fuel : nat) (m : mem) (s : ptr) : option Z :=
  match fuel with
  | O => None
  | S fuel' =>
      if Byte.eqb (m s) NUL then Some 0
      else option_map Z.succ (strlen fuel' m (s + 1))
  end.

Definition string_view_of_cstr (fuel : nat) (m : mem) (s : ptr)
  : option string_view :=
  option_map (fun n => {| sv_data := s; sv_length := n |}) (strlen fuel m s).

(** ** byte_view *)

Record byte_view := mk_byte_view { _buf : ptr; _sz : Z }.

(** [byte_view()] *)
Definition byte_view_default : byte_view :=
  {| _buf := nullptr; _sz := 0 |}.

(** [byte_view(const void *buf, size_t sz)] *)
Definition byte_view_raw (buf : ptr) (sz : Z) : byte_view :=
  {| _buf := buf; _sz := sz |}.

(** [byte_view(const byte_view &o)] *)
Definition byte_view_copy (o : byte_view) : byte_view :=
  {| _buf := _buf o; _sz := _sz o |}.

(** The private constructor
    [byte_view(std::string_view s, bool with_nul, bool check_nul)]:
    delegate to the raw constructor, then count the terminator unless the
    check is requested and the byte at [s[s.length()]] is not ['\0']. *)
Definition byte_view_text (m : mem) (s : string_view)
    (with_nul check_nul : bool) : byte_view :=
  let this := byte_view_raw (sv_data s) (sv_length s) in
  if with_nul then
    if check_nul && negb (Byte.eqb (m (sv_data s + sv_length s)) NUL)
    then this
    else {| _buf := _buf this; _sz := size_add (_sz this) 1 |}
  else this.

(** [byte_view(const char *s, bool with_nul = true)] *)
Definition byte_view_of_cstr (fuel : nat) (m : mem) (s : ptr)
    (with_nul : bool) : option byte_view :=
  option_map (fun sv => byte_view_text m sv with_nul false)
             (string_view_of_cstr fuel m s).

(** [byte_view(const std::string &s, bool with_nul = true)] *)
Definition byte_view_of_string (m : mem) (s : std_string)
    (with_nul : bool) : byte_view :=
  byte_view_text m (string_view_of_string s) with_nul false.

(** [byte_view(std::string_view s, bool with_nul = true)] *)
Definition byte_view_of_string_view (m : mem) (s : string_view)
    (with_nul : bool) : byte_view :=
  byte_view_text m s with_nul true.

(** [byte_view(const std::vector<uint8_t> &v)] *)
Definition byte_view_of_vector (v : byte_vector) : byte_view :=
  byte_view_raw (vec_data v) (vec_size v).

(** The bytes a view denotes in a given memory. *)
Definition view_bytes (m : mem) (v : byte_view) : list byte :=
  load_bytes m (_buf v) (_sz v).

(** ** byte_data *)

(** [byte_data] adds no field to [byte_view]. *)
Definition byte_data := byte_view.

(** [byte_data(void *buf, size_t sz)] *)
Definition byte_data_raw (buf : ptr) (sz : Z) : byte_data :=
  byte_view_raw buf sz.

(** [byte_data(std::string &s, bool with_nul = true)] *)
Definition byte_data_of_string (s : std_string) (with_nul : bool)
  : byte_data :=
  byte_data_raw (str_data s)
    (if with_nul then size_add (str_length s) 1 else str_length s).

(** [byte_data(std::vector<uint8_t> &v)] *)
Definition byte_data_of_vector (v : byte_vector) : byte_data :=
  byte_data_raw (vec_data v) (vec_size v).

(** ** Bridging to Rust slices *)

(** [rust::Slice<T>] belongs to the cxx bridge, not to this repository.  It
    is taken as an interface: a slice is made from a pointer and a count and
    answers [data()] and [size()] with what it was made from. *)
Class RustSlice (S : Type) := {
  slice_new : ptr -> Z -> S;
  slice_data : S -> ptr;
  slice_size : S -> Z;
  slice_data_new : forall p n, slice_data (slice_new p n) = p;
  slice_size_new : forall p n, slice_size (slice_new p n) = n
}.

(** A plain (pointer, length) pair instantiates the interface. *)
Record raw_slice := mk_raw_slice { rs_ptr : ptr; rs_len : Z }.

#[export] Instance raw_slice_RustSlice : RustSlice raw_slice := {|
  slice_new := mk_raw_slice;
  slice_data := rs_ptr;
  slice_size := rs_len;
  slice_data_new := fun _ _ => eq_refl;
  slice_size_new := fun _ _ => eq_refl
|}.

Section Bridging.
Context {ConstSlice MutSlice : Type}.
Context `{!RustSlice ConstSlice} `{!RustSlice MutSlice}.

(** [byte_view(rust::Slice<const uint8_t> o)] *)
Definition byte_view_of_slice (o : ConstSlice) : byte_view :=
  byte_view_raw (slice_data o) (slice_size o).

(** [operator rust::Slice<const uint8_t>()] *)
Definition byte_view_to_slice (this : byte_view) : ConstSlice :=
  slice_new (_buf this) (_sz this).

(** [byte_data(rust::Slice<uint8_t> o)] *)
Definition byte_data_of_slice (o : MutSlice) : byte_data :=
  byte_data_raw (slice_data o) (slice_size o).

(** [operator rust::Slice<uint8_t>()] *)
Definition byte_data_to_slice (this : byte_data) : MutSlice :=
  slice_new (_buf this) (_sz this).

End Bridging.

(** ** Searching and patching byte sequences *)

(** [memcmp]-style test: do the bytes of [p] open the sequence [s]? *)
Fixpoint is_prefix (p s : list byte) : bool :=
  match p, s with
  | [], _ => true
  | _ :: _, [] => false
  | x :: p', y :: s' => Byte.eqb x y && is_prefix p' s'
  end.

(** Modelled from the spec: [byte_view::contains] is declared in misc.hpp
    but its body is not part of the source.  The needle is contained iff it
    occurs contiguously in the haystack, byte for byte; the empty needle is
    always contained. *)
Fixpoint contains_bytes (hay needle : list byte) : bool :=
  is_prefix needle hay ||
  match hay with
  | [] => false
  | _ :: hay' => contains_bytes hay' needle
  end.

Definition contains (m : mem) (this pattern : byte_view) : bool :=
  contains_bytes (view_bytes m this) (view_bytes m pattern).

(** Modelled from the spec: [byte_data::patch] is declared in misc.hpp but
    its body is not part of the source.  The scan goes left to right from
    the current position [off]; on a match the matched span is overwritten
    with the bytes of [to], the starting offset is recorded, and scanning
    resumes right after the replaced span.  [fuel] bounds the number of
    positions visited; the length of the buffer is always enough. *)
Fixpoint patch_scan (fuel : nat) (from to : list byte) (off : Z)
    (buf : list byte) : list byte * list Z :=
  match fuel with
  | O => (buf, [])
  | S fuel' =>
      match buf with
      | [] => ([], [])
      | b :: rest =>
          if is_prefix from buf then
            let '(out, offs) :=
              patch_scan fuel' from to (off + Z.of_nat (length from))
                         (drop (length from) buf) in
            (to ++ out, off :: offs)
          else
            let '(out, offs) := patch_scan fuel' from to (off + 1) rest in
            (b :: out, offs)
      end
  end.

(** Modelled from the spec: an empty [from] matches nowhere.  The patterns
    are expected to have equal lengths; nothing checks it. *)
Definition patch_bytes (buf from to : list byte) : list byte * list Z :=
  match from with
  | [] => (buf, [])
  | _ :: _ => patch_scan (length buf) from to 0 buf
  end.

(** [std::vector<size_t> byte_data::patch(byte_view from, byte_view to)]:
    the buffer is patched in place, the descriptor itself is untouched. *)
Definition patch (m : mem) (this : byte_data) (from to : byte_view)
  : mem * list Z :=
  let '(out, offs) :=
    patch_bytes (view_bytes m this) (view_bytes m from) (view_bytes m to) in
  (store_bytes m (_buf this) out, offs).

(** Consecutive offsets lie at least [gap] apart. *)
Fixpoint spaced (gap : Z) (offs : list Z) : Prop :=
  match offs with
  | [] => True
  | o :: rest =>
      match rest with
      | [] => True
      | o' :: _ => o + gap <= o'
      end /\ spaced gap rest
  end.

(** ** Exchanging and moving descriptors *)

(** Modelled from the spec: [byte_data::swap] is declared in misc.hpp but
    its body is not part of the source.  It exchanges the (reference,
    length) pairs of the two descriptors; the result is the pair
    ([*this], [o]) after the call. *)
Definition swap (this o : byte_data) : byte_data * byte_data :=
  ({| _buf := _buf o; _sz := _sz o |},
   {| _buf := _buf this; _sz := _sz this |}).

(** ** byte_array<N> *)






(** ** heap_data *)

Definition heap_data := byte_data.

(** [malloc] belongs to the C library: an allocator state [A] and a function
    that answers a request with a pointer, [nullptr] when it fails. *)
Class Allocator (A : Type) := { malloc : A -> Z -> ptr * A }.

(** A bump allocator over the arena [[next, limit)]. *)
Record arena := mk_arena { next : ptr; limit : ptr }.

Definition arena_malloc (a : arena) (sz : Z) : ptr * arena :=
  if Z.leb (next a + Z.max sz 1) (limit a)
  then (next a, {| next := next a + Z.max sz 1; limit := limit a |})
  else (nullptr, a).

#[global] Instance arena_Allocator : Allocator arena :=
  {| malloc := arena_malloc |}.

(** [explicit heap_data(size_t sz) : byte_data(malloc(sz), sz) {}] *)
Definition heap_data_new {A} `{!Allocator A} (a : A) (sz : Z)
  : heap_data * A :=
  let '(p, a') := malloc a sz in (byte_data_raw p sz, a').

(** [free(p)], recorded in the log of released pointers; [free(nullptr)]
    does nothing. *)
Definition free (p : ptr) (released : list ptr) : list ptr :=
  if Z.eqb p nullptr then released else p :: released.

(** [~heap_data() { free(_buf); }] *)
Definition heap_data_delete (this : heap_data) (released : list ptr)
  : list ptr :=
  free (_buf this) released.

(** [ALLOW_MOVE_ONLY]: [clazz(clazz &&o) { swap(o); }] on a default
    constructed [*this].  The result is ([*this], [o]). *)
Definition heap_data_move (o : heap_data) : heap_data * heap_data :=
  swap byte_view_default o.

(** [ALLOW_MOVE_ONLY]:
    [clazz& operator=(clazz &&o) { swap(o); return *this; }] *)
Definition heap_data_move_assign (this o : heap_data)
  : heap_data * heap_data :=
  swap this o.

(** A scope holding owning buffers: slot [i] is [Some d] while object [i]
    is alive and [None] once destroyed; [released] logs the pointers handed
    to [free]. *)
Record scope := mk_scope {
  objs : list (option heap_data);
  released : list ptr
}.

Inductive move_op :=
| MoveConstruct (src : nat)
| MoveAssign (dst src : nat)
| Destroy (i : nat).

(** One statement; [None] when it names an object that is not alive. *)
Definition scope_step (w : scope) (op : move_op) : option scope :=
  match op with
  | MoveConstruct src =>
      match objs w !! src with
      | Some (Some o) =>
          let '(this, o') := heap_data_move o in
          Some {| objs := <[src := Some o']> (objs w) ++ [Some this];
                  released := released w |}
      | _ => None
      end
  | MoveAssign dst src =>
      match objs w !! dst, objs w !! src with
      | Some (Some this), Some (Some o) =>
          let '(this', o') := heap_data_move_assign this o in
          Some {| objs := <[src := Some o']> (<[dst := Some this']> (objs w));
                  released := released w |}
      | _, _ => None
      end
  | Destroy i =>
      match objs w !! i with
      | Some (Some this) =>
          Some {| objs := <[i := None]> (objs w);
                  released := heap_data_delete this (released w) |}
      | _ => None
      end
  end.

Fixpoint scope_run (w : scope) (ops : list move_op) : option scope :=
  match ops with
  | [] => Some w
  | op :: ops' =>
      match scope_step w op with
      | Some w' => scope_run w' ops'
      | None => None
      end
  end.

(** Leaving the scope destroys every object that is still alive, last
    constructed first. *)
Definition scope_exit (w : scope) : scope :=
  {| objs := map (fun _ => None) (objs w);
     released :=
       fold_right (fun slot log =>
                     match slot with
                     | Some this => heap_data_delete this log
                     | None => log
                     end) (released w) (objs w) |}.

(** The allocations owned by the live objects of a scope. *)
Definition owned_ptr (slot : option heap_data) : option ptr :=
  match slot with
  | Some this => if Z.eqb (_buf this) nullptr then None else Some (_buf this)
  | None => None
  end.

Definition owned (w : scope) : list ptr := omap owned_ptr (objs w).

(** ** dynamic_bitset *)

Section DynamicBitset.

(** [sizeof(unsigned long)] is fixed by the target; it is at least one. *)
Variable sizeof_ulong : positive.

(** [constexpr static int slot_size = sizeof(slot_type) * 8] *)
Definition slot_size : nat := (Pos.to_nat sizeof_ulong * 8)%nat.

(** [slot_bits(l)]: a [std::bitset<slot_size>] holding the low [slot_size]
    bits of [l].  A bitset is the integer whose binary digits it holds, so
    that [to_ulong()] is the identity. *)
Definition slot_bits_of (l : Z) : Z := l mod 2 ^ Z.of_nat slot_size.

(** [std::vector<slot_bits> slot_list] *)
Record dynamic_bitset_impl := mk_dynamic_bitset { slot_list : list Z }.

(** A default constructed bitset has no slot. *)
Definition dynamic_bitset_empty : dynamic_bitset_impl :=
  {| slot_list := [] |}.

(** [size_t slots() const] *)
Definition slots (b : dynamic_bitset_impl) : nat := length (slot_list b).

(** [slot_type get_slot(size_t slot) const] *)
Definition get_slot (b : dynamic_bitset_impl) (slot : nat) : Z :=
  if (slot <? length (slot_list b))%nat
  then default 0 (slot_list b !! slot)
  else 0.

(** [void emplace_back(slot_type l)] *)
Definition emplace_back (b : dynamic_bitset_impl) (l : Z)
  : dynamic_bitset_impl :=
  {| slot_list := slot_list b ++ [slot_bits_of l] |}.

(** [std::vector::resize(n)]: cut to [n] elements or pad with default
    constructed (all zero) bitsets. *)
Definition resize (l : list Z) (n : nat) : list Z :=
  take n l ++ replicate (n - length l) 0.

(** [slot_bits::reference]: the slot and the bit it designates. *)
Record bit_reference := mk_bit_reference { ref_slot : nat; ref_index : nat }.

(** [slot_bits::reference get(size_t pos)]: grows the vector when the slot
    is missing and hands out a reference to the bit. *)
Definition get (b : dynamic_bitset_impl) (pos : nat)
  : dynamic_bitset_impl * bit_reference :=
  let slot := (pos / slot_size)%nat in
  let index := (pos mod slot_size)%nat in
  let l := if (length (slot_list b) <=? slot)%nat
           then resize (slot_list b) (slot + 1)
           else slot_list b in
  ({| slot_list := l |}, {| ref_slot := slot; ref_index := index |}).

(** [bool get(size_t pos) const] *)
Definition get_const (b : dynamic_bitset_impl) (pos : nat) : bool :=
  let slot := (pos / slot_size)%nat in
  let index := (pos mod slot_size)%nat in
  (slot <? length (slot_list b))%nat &&
  Z.testbit (default 0 (slot_list b !! slot)) (Z.of_nat index).

(** Reading a bit through a reference ([operator bool]). *)
Definition ref_read (b : dynamic_bitset_impl) (r : bit_reference) : bool :=
  Z.testbit (default 0 (slot_list b !! ref_slot r)) (Z.of_nat (ref_index r)).

(** Assigning a bit through a reference ([operator=(bool)]). *)
Definition ref_assign (b : dynamic_bitset_impl) (r : bit_reference)
    (v : bool) : dynamic_bitset_impl :=
  {| slot_list :=
       alter (fun x => if v then Z.setbit x (Z.of_nat (ref_index r))
                       else Z.clearbit x (Z.of_nat (ref_index r)))
             (ref_slot r) (slot_list b) |}.

(** [bs[pos] = v] on a non-const [dynamic_bitset]. *)
Definition bitset_assign (b : dynamic_bitset_impl) (pos : nat) (v : bool)
  : dynamic_bitset_impl :=
  let '(b', r) := get b pos in ref_assign b' r v.

(** [bs[pos]] read on a non-const [dynamic_bitset]: the bitset after the
    access and the bit read. *)
Definition bitset_read (b : dynamic_bitset_impl) (pos : nat)
  : dynamic_bitset_impl * bool :=
  let '(b', r) := get b pos in (b', ref_read b' r).

(** Every slot holds [slot_size] bits. *)
Definition slots_in_range (b : dynamic_bitset_impl) : Prop :=
  Forall (fun x => 0 <= x < 2 ^ Z.of_nat slot_size) (slot_list b).

End DynamicBitset.

(** ** String helpers *)

(** [std::string::npos] *)
Definition npos : Z := SIZE_MAX.

(** [std::string_view::compare(std::string_view)]: the characters are
    compared as unsigned bytes, the shorter text comes first on a tie. *)
Fixpoint sv_compare (a b : list byte) : comparison :=
  match a, b with
  | [], [] => Eq
  | [], _ :: _ => Lt
  | _ :: _, [] => Gt
  | x :: a', y :: b' =>
      match N.compare (Byte.to_N x) (Byte.to_N y) with
      | Eq => sv_compare a' b'
      | c => c
      end
  end.

(** [s.substr(pos, n)]: [std::out_of_range] ([None]) when [pos > size()],
    otherwise the [min(n, size() - pos)] characters from [pos]. *)
Definition sv_substr (s : list byte) (pos n : Z) : option (list byte) :=
  if Z.leb pos (Z.of_nat (length s)) then
    Some (take (Z.to_nat (Z.min n (Z.of_nat (length s) - pos)))
               (drop (Z.to_nat pos) s))
  else None.

(** [s.compare(pos, n, ss)] *)
Definition sv_compare_at (s : list byte) (pos n : Z) (ss : list byte)
  : option comparison :=
  option_map (fun sub => sv_compare sub ss) (sv_substr s pos n).

(** [s.find(ss)]: the first position where [ss] occurs, or [npos]. *)
Fixpoint sv_find_from (i : Z) (s ss : list byte) : Z :=
  if is_prefix ss s then i
  else match s with
       | [] => npos
       | _ :: s' => sv_find_from (i + 1) s' ss
       end.

Definition sv_find (s ss : list byte) : Z := sv_find_from 0 s ss.

Definition is_Eq (c : comparison) : bool :=
  match c with Eq => true | _ => false end.

(** [str_contains]: [s.find(ss) != std::string::npos] *)
Definition str_contains (s ss : list byte) : bool :=
  negb (Z.eqb (sv_find s ss) npos).

(** [str_starts]:
    [s.size() >= ss.size() && s.compare(0, ss.size(), ss) == 0];
    [None] stands for an exception leaving the function. *)
Definition str_starts (s ss : list byte) : option bool :=
  if Z.geb (Z.of_nat (length s)) (Z.of_nat (length ss)) then
    option_map is_Eq (sv_compare_at s 0 (Z.of_nat (length ss)) ss)
  else Some false.

(** [str_ends]:
    [s.size() >= ss.size() &&
     s.compare(s.size() - ss.size(), std::string::npos, ss) == 0] *)
Definition str_ends (s ss : list byte) : option bool :=
  if Z.geb (Z.of_nat (length s)) (Z.of_nat (length ss)) then
    option_map is_Eq
      (sv_compare_at s (Z.of_nat (length s) - Z.of_nat (length ss)) npos ss)
  else Some false.

(** [std::find_if]: the position of the first element satisfying [pred],
    the length of the sequence when there is none. *)
Fixpoint find_if {T} (pred : T -> bool) (l : list T) : nat :=
  match l with
  | [] => O
  | x :: l' => if pred x then O else S (find_if pred l')
  end.

Section Trim.

(** [std::isspace] belongs to the C library and follows the locale. *)
Variable isspace : byte -> bool.

(** [ltrim]: erase from the beginning up to the first character that is
    not a space. *)
Definition ltrim (s : list byte) : list byte :=
  drop (find_if (fun ch => negb (isspace ch)) s) s.

(** [rtrim]: search backwards for the first character that is neither a
    space nor ['\0'] and erase everything after it. *)
Definition rtrim (s : list byte) : list byte :=
  take (length s -
        find_if (fun ch => negb (isspace ch) && negb (Byte.eqb ch NUL))
                (rev s))
       s.

End Trim.

(** The spaces of the C locale. *)
Definition isspace_C (ch : byte) : bool :=
  match ch with
  | x09 | x0a | x0b | x0c | x0d | x20 => true
  | _ => false
  end.

(** ** mutex_guard *)

(** Calls made on the pthread library, with the mutex they are given. *)
Inductive mutex_event :=
| Lock (m : ptr)
| Unlock (m : ptr).

Record mutex_guard := mk_mutex_guard { mutex : ptr }.

(** [explicit mutex_guard(pthread_mutex_t &m)] *)
Definition mutex_guard_new (m : ptr) (log : list mutex_event)
  : mutex_guard * list mutex_event :=
  ({| mutex := m |}, log ++ [Lock m]).

(** [void unlock()] *)
Definition unlock (g : mutex_guard) (log : list mutex_event)
  : mutex_guard * list mutex_event :=
  ({| mutex := nullptr |}, log ++ [Unlock (mutex g)]).

(** [~mutex_guard()] *)
Definition mutex_guard_delete (g : mutex_guard) (log : list mutex_event)
  : list mutex_event :=
  if Z.eqb (mutex g) nullptr then log else log ++ [Unlock (mutex g)].

(** A guard on [m] on which [unlock()] is called [k] times before it goes
    out of scope. *)
Fixpoint unlock_times (k : nat) (st : mutex_guard * list mutex_event)
  : mutex_guard * list mutex_event :=
  match k with
  | O => st
  | S k' => unlock_times k' (unlock (fst st) (snd st))
  end.

Definition guarded_scope (m : ptr) (k : nat) : list mutex_event :=
  let st := unlock_times k (mutex_guard_new m []) in
  mutex_guard_delete (fst st) (snd st).

(** ** Sample memories, allocators and scopes *)

(** The text [abc] at address 16, surrounded by dots. *)
Definition mem_abc : mem :=
  store_bytes (fun _ => x2e) 16 (list_byte_of_string "abc").

(** The text [abc] at address 16 in zeroed memory: the byte at 19 is its
    terminator, so address 19 also holds the empty C string. *)
Definition mem_zero : mem := fun _ => NUL.

Definition mem_abc0 : mem :=
  store_bytes mem_zero 16 (list_byte_of_string "abc").

(** [aaaa] at 32, [aa] at 48 and [bb] at 64. *)
Definition mem_patch : mem :=
  store_bytes
    (store_bytes
       (store_bytes mem_zero 32 (list_byte_of_string "aaaa"))
       48 (list_byte_of_string "aa"))
    64 (list_byte_of_string "bb").

(** An arena with eight bytes left. *)
Definition arena_small : arena := {| next := 4096; limit := 4104 |}.

(** Two live owning buffers, nothing released yet. *)
Definition scope_two : scope :=
  {| objs := [Some (mk_byte_view 4096 4); Some (mk_byte_view 8192 8)];
     released := [] |}.

(** Move-construct a third buffer from the first, move-assign it onto the
    second, then destroy the first. *)
Definition moves_example : list move_op :=
  [MoveConstruct 0; MoveAssign 1 2; Destroy 0].

(** * Properties *)

(** ** size_t arithmetic *)

Lemma size_add_one_small (n : Z) :
  0 <= n < SIZE_MAX -> size_add n 1 = n + 1.
Proof.
  unfold size_add, size_wrap, SIZE_MAX. intros Hn.
  apply Z.mod_small. lia.
Qed.

Lemma size_add_one_differs (n : Z) : size_add n 1 <> n.
Proof.
  unfold size_add, size_wrap. intros Heq.
  assert (Hn : 0 <= n < 2 ^ 64)
    by (rewrite <- Heq; apply Z.mod_pos_bound; lia).
  destruct (Z.eq_dec n (2 ^ 64 - 1)) as [->|Hne].
  - vm_compute in Heq. discriminate.
  - rewrite Z.mod_small in Heq; lia.
Qed.

Lemma byte_eqb_eq (x y : byte) : Byte.eqb x y = true <-> x = y.
Proof. split; [apply byte_dec_bl | apply byte_dec_lb]. Qed.

Lemma byte_eqb_refl (x : byte) : Byte.eqb x x = true.
Proof. now apply byte_dec_lb. Qed.

(** ** Views built from text *)

Lemma byte_view_text_buf m s with_nul check_nul :
  _buf (byte_view_text m s with_nul check_nul) = sv_data s.
Proof.
  unfold byte_view_text.
  destruct with_nul; [|reflexivity].
  destruct (check_nul && _); reflexivity.
Qed.

Lemma byte_view_text_checked_nul m s :
  m (sv_data s + sv_length s) = NUL ->
  _sz (byte_view_text m s true true) = size_add (sv_length s) 1.
Proof.
  intros H. unfold byte_view_text. rewrite H, byte_eqb_refl. reflexivity.
Qed.

Lemma byte_view_text_checked_no_nul m s :
  m (sv_data s + sv_length s) <> NUL ->
  _sz (byte_view_text m s true true) = sv_length s.
Proof.
  intros H. unfold byte_view_text.
  destruct (Byte.eqb _ NUL) eqn:E; [|reflexivity].
  apply byte_eqb_eq in E. contradiction.
Qed.

Lemma byte_view_text_unchecked m s :
  _sz (byte_view_text m s true false) = size_add (sv_length s) 1.
Proof. reflexivity. Qed.

Lemma byte_view_text_without_nul m s check_nul :
  _sz (byte_view_text m s false check_nul) = sv_length s.
Proof. reflexivity. Qed.

(** C2: a view built from a [std::string_view] with the terminator option
    on starts at the text and counts one byte more than the text exactly
    when the byte right after the text is the terminator; otherwise the
    constructor still returns, with the length of the text alone. *)
Theorem byte_view_of_string_view_with_nul (m : mem) (s : string_view) :
  _buf (byte_view_of_string_view m s true) = sv_data s /\
  (_sz (byte_view_of_string_view m s true) = size_add (sv_length s) 1
     <-> m (sv_data s + sv_length s) = NUL) /\
  (m (sv_data s + sv_length s) <> NUL ->
     _sz (byte_view_of_string_view m s true) = sv_length s) /\
  (0 <= sv_length s < SIZE_MAX ->
     size_add (sv_length s) 1 = sv_length s + 1).
Proof.
  unfold byte_view_of_string_view.
  split; [apply byte_view_text_buf|].
  split; [|split].
  - split.
    + intros Hlen.
      destruct (byte_eq_dec (m (sv_data s + sv_length s)) NUL) as [E|E];
        [exact E|].
      rewrite (byte_view_text_checked_no_nul _ _ E) in Hlen.
      symmetry in Hlen. now apply size_add_one_differs in Hlen.
    + apply byte_view_text_checked_nul.
  - apply byte_view_text_checked_no_nul.
  - apply size_add_one_small.
Qed.

Lemma byte_view_of_string_view_with_nul_witness :
  mem_abc (16 + 3) <> NUL /\
  _sz (byte_view_of_string_view mem_abc (mk_string_view 16 3) true) = 3.
Proof.
  assert (H : mem_abc (16 + 3) <> NUL) by (vm_compute; discriminate).
  split; [exact H|].
  exact (proj1 (proj2 (proj2
           (byte_view_of_string_view_with_nul mem_abc (mk_string_view 16 3))))
           H).
Defined.

(** C10: a [byte_data] built from a [std::string] with the default option
    has length [s.length() + 1] whatever the memory holds; the
    [std::string_view] path of [byte_view] gives the bare text length when
    the byte after the text is not the terminator. *)
Theorem byte_data_of_string_with_nul (s : std_string) :
  _buf (byte_data_of_string s true) = str_data s /\
  _sz (byte_data_of_string s true) = size_add (str_length s) 1 /\
  (0 <= str_length s < SIZE_MAX ->
     _sz (byte_data_of_string s true) = str_length s + 1) /\
  (forall m : mem,
     m (str_data s + str_length s) <> NUL ->
     _sz (byte_view_of_string_view m (string_view_of_string s) true)
       = str_length s /\
     _sz (byte_view_of_string_view m (string_view_of_string s) true)
       <> _sz (byte_data_of_string s true)).
Proof.
  split; [reflexivity|]. split; [reflexivity|]. split.
  - intros Hn. simpl. now apply size_add_one_small.
  - intros m Hnul.
    assert (E : _sz (byte_view_of_string_view m (string_view_of_string s) true)
                = str_length s)
      by (now apply byte_view_text_checked_no_nul).
    split; [exact E|]. rewrite E. simpl.
    intros Heq. symmetry in Heq. now apply size_add_one_differs in Heq.
Qed.

Lemma byte_data_of_string_with_nul_witness :
  0 <= 3 < SIZE_MAX /\ _sz (byte_data_of_string (mk_std_string 16 3) true) = 4.
Proof.
  assert (H : 0 <= 3 < SIZE_MAX) by (unfold SIZE_MAX; lia).
  split; [exact H|].
  exact (proj1 (proj2 (proj2
           (byte_data_of_string_with_nul (mk_std_string 16 3)))) H).
Defined.

(** ** Slice bridge *)

Section BridgingFacts.
Context {ConstSlice MutSlice : Type}.
Context `{!RustSlice ConstSlice} `{!RustSlice MutSlice}.

(** C8: a view taken to a [rust::Slice<const uint8_t>] and back is the same
    (reference, length) pair, and so is a data taken through
    [rust::Slice<uint8_t>]; the slice names the very region of the
    descriptor, and the conversions are defined on every descriptor. *)
Theorem slice_bridge_roundtrip (v : byte_view) (d : byte_data) :
  byte_view_of_slice (byte_view_to_slice (ConstSlice := ConstSlice) v) = v /\
  byte_data_of_slice (byte_data_to_slice (MutSlice := MutSlice) d) = d /\
  slice_data (byte_view_to_slice (ConstSlice := ConstSlice) v) = _buf v /\
  slice_size (byte_view_to_slice (ConstSlice := ConstSlice) v) = _sz v /\
  slice_data (byte_data_to_slice (MutSlice := MutSlice) d) = _buf d /\
  slice_size (byte_data_to_slice (MutSlice := MutSlice) d) = _sz d.
Proof.
  unfold byte_view_of_slice, byte_view_to_slice, byte_data_of_slice,
    byte_data_to_slice, byte_data_raw, byte_view_raw.
  rewrite !slice_data_new, !slice_size_new.
  destruct v, d. repeat split.
Qed.

End BridgingFacts.

Lemma slice_bridge_roundtrip_witness :
  byte_view_of_slice
    (byte_view_to_slice (ConstSlice := raw_slice) (mk_byte_view 4096 12))
  = mk_byte_view 4096 12.
Proof.
  exact (proj1 (slice_bridge_roundtrip (ConstSlice := raw_slice)
                  (MutSlice := raw_slice)
                  (mk_byte_view 4096 12) byte_view_default)).
Defined.

(** ** Prefix test and search *)

Lemma is_prefix_app (p s : list byte) : is_prefix p (p ++ s) = true.
Proof.
  induction p as [|x p IH]; simpl; [reflexivity|].
  now rewrite byte_eqb_refl, IH.
Qed.

Lemma is_prefix_split (p s : list byte) :
  is_prefix p s = true -> s = p ++ drop (length p) s.
Proof.
  revert s. induction p as [|x p IH]; intros s H; simpl in *.
  - reflexivity.
  - destruct s as [|y s]; [discriminate|].
    apply andb_true_iff in H as [Hxy Hp].
    apply byte_eqb_eq in Hxy. subst y.
    simpl. f_equal. now apply IH.
Qed.

Lemma is_prefix_nil_l (s : list byte) : is_prefix [] s = true.
Proof. reflexivity. Qed.

Lemma contains_bytes_nil_needle (hay : list byte) :
  contains_bytes hay [] = true.
Proof. destruct hay; reflexivity. Qed.

Lemma contains_bytes_single (hay : list byte) (b : byte) :
  contains_bytes hay [b] = true <-> In b hay.
Proof.
  induction hay as [|x hay IH]; simpl.
  - split; [discriminate | tauto].
  - rewrite orb_true_iff, andb_true_r, IH, byte_eqb_eq.
    split; intros [H|H]; auto.
Qed.

(** ** The scan of patch *)

Lemma patch_scan_nil fuel from to off :
  patch_scan fuel from to off [] = ([], []).
Proof. destruct fuel; reflexivity. Qed.

Lemma patch_scan_hit fuel from to off b rest :
  is_prefix from (b :: rest) = true ->
  patch_scan (S fuel) from to off (b :: rest) =
    (to ++ fst (patch_scan fuel from to (off + Z.of_nat (length from))
                  (drop (length from) (b :: rest))),
     off :: snd (patch_scan fuel from to (off + Z.of_nat (length from))
                   (drop (length from) (b :: rest)))).
Proof.
  intros H. cbn [patch_scan]. rewrite H.
  destruct (patch_scan fuel from to _ _). reflexivity.
Qed.

Lemma patch_scan_miss fuel from to off b rest :
  is_prefix from (b :: rest) = false ->
  patch_scan (S fuel) from to off (b :: rest) =
    (b :: fst (patch_scan fuel from to (off + 1) rest),
     snd (patch_scan fuel from to (off + 1) rest)).
Proof.
  intros H. cbn [patch_scan]. rewrite H.
  destruct (patch_scan fuel from to _ _). reflexivity.
Qed.

Lemma length_drop_cons_lt (from : list byte) b (rest : list byte) :
  from <> [] -> (length (drop (length from) (b :: rest)) <= length rest)%nat.
Proof.
  intros Hne. destruct from as [|x from]; [contradiction|].
  simpl. rewrite length_drop. lia.
Qed.

(** Enough fuel: any amount at least the length of the buffer gives the
    same result. *)
Lemma patch_scan_fuel from to :
  from <> [] ->
  forall fuel1 fuel2 off buf,
    (length buf <= fuel1)%nat -> (length buf <= fuel2)%nat ->
    patch_scan fuel1 from to off buf = patch_scan fuel2 from to off buf.
Proof.
  intros Hne fuel1.
  induction fuel1 as [|fuel1 IH]; intros fuel2 off buf H1 H2.
  - destruct buf; [|simpl in H1; lia]. now rewrite !patch_scan_nil.
  - destruct buf as [|b rest]; [now rewrite !patch_scan_nil|].
    destruct fuel2 as [|fuel2]; [simpl in H2; lia|].
    simpl in H1, H2.
    destruct (is_prefix from (b :: rest)) eqn:Hpre.
    + rewrite !(patch_scan_hit _ _ _ _ _ _ Hpre).
      pose proof (length_drop_cons_lt from b rest Hne).
      rewrite (IH fuel2); [reflexivity | lia | lia].
    + rewrite !(patch_scan_miss _ _ _ _ _ _ Hpre).
      rewrite (IH fuel2); [reflexivity | lia | lia].
Qed.

(** Every recorded offset is at or after the position the scan starts
    from. *)
Lemma patch_scan_offsets_ge from to fuel :
  forall off buf,
    Forall (fun o => off <= o) (snd (patch_scan fuel from to off buf)).
Proof.
  induction fuel as [|fuel IH]; intros off buf; [constructor|].
  destruct buf as [|b rest]; [constructor|].
  destruct (is_prefix from (b :: rest)) eqn:Hpre.
  - rewrite (patch_scan_hit _ _ _ _ _ _ Hpre). simpl.
    constructor; [lia|].
    eapply Forall_impl; [apply IH|]. simpl. intros o Ho. lia.
  - rewrite (patch_scan_miss _ _ _ _ _ _ Hpre). simpl.
    eapply Forall_impl; [apply IH|]. simpl. intros o Ho. lia.
Qed.

Lemma spaced_cons gap o offs :
  Forall (fun o' => o + gap <= o') offs -> spaced gap offs ->
  spaced gap (o :: offs).
Proof.
  intros Hge Hsp. simpl. split; [|exact Hsp].
  destruct offs as [|o' offs]; [exact I|].
  now inversion Hge.
Qed.

Lemma patch_scan_spaced from to fuel :
  forall off buf,
    spaced (Z.of_nat (length from)) (snd (patch_scan fuel from to off buf)).
Proof.
  induction fuel as [|fuel IH]; intros off buf; [exact I|].
  destruct buf as [|b rest]; [exact I|].
  destruct (is_prefix from (b :: rest)) eqn:Hpre.
  - rewrite (patch_scan_hit _ _ _ _ _ _ Hpre). cbn [snd].
    apply spaced_cons; [apply patch_scan_offsets_ge | apply IH].
  - rewrite (patch_scan_miss _ _ _ _ _ _ Hpre). cbn [snd]. apply IH.
Qed.

Lemma patch_scan_length from to :
  length from = length to ->
  forall fuel off buf,
    length (fst (patch_scan fuel from to off buf)) = length buf.
Proof.
  intros Hlen fuel.
  induction fuel as [|fuel IH]; intros off buf; [reflexivity|].
  destruct buf as [|b rest]; [reflexivity|].
  destruct (is_prefix from (b :: rest)) eqn:Hpre.
  - rewrite (patch_scan_hit _ _ _ _ _ _ Hpre). cbn [fst].
    rewrite length_app, IH, <- Hlen.
    rewrite (is_prefix_split _ _ Hpre) at 2.
    now rewrite length_app.
  - rewrite (patch_scan_miss _ _ _ _ _ _ Hpre). cbn [fst length].
    now rewrite IH.
Qed.

(** Patching back: on a buffer that the scan has already patched from
    [from] to [to], the reverse scan restores the buffer exactly when it
    records the same offsets. *)
Lemma patch_scan_roundtrip from to :
  length from = length to -> from <> [] ->
  forall fuel off buf,
    (length buf <= fuel)%nat ->
    fst (patch_scan fuel to from off
           (fst (patch_scan fuel from to off buf))) = buf
    <->
    snd (patch_scan fuel to from off
           (fst (patch_scan fuel from to off buf)))
      = snd (patch_scan fuel from to off buf).
Proof.
  intros Hlen Hne fuel.
  induction fuel as [|fuel IH]; intros off buf Hfuel.
  - destruct buf; [|simpl in Hfuel; lia]. simpl. tauto.
  - destruct buf as [|b rest]; [simpl; tauto|].
    simpl in Hfuel.
    destruct (is_prefix from (b :: rest)) eqn:Hpre.
    + rewrite (patch_scan_hit _ _ _ _ _ _ Hpre). cbn [fst snd].
      set (tail := drop (length from) (b :: rest)) in *.
      set (r1 := patch_scan fuel from to (off + Z.of_nat (length from)) tail)
        in *.
      destruct to as [|t to']; [destruct from; [contradiction|discriminate]|].
      assert (Hto : is_prefix (t :: to') ((t :: to') ++ fst r1) = true)
        by apply is_prefix_app.
      change ((t :: to') ++ fst r1) with (t :: (to' ++ fst r1)) in *.
      rewrite (patch_scan_hit _ _ _ _ _ _ Hto). cbn [fst snd].
      change (t :: (to' ++ fst r1)) with ((t :: to') ++ fst r1).
      rewrite drop_app_length, <- Hlen.
      assert (Htail : (length tail <= fuel)%nat).
      { pose proof (length_drop_cons_lt from b rest Hne). subst tail. lia. }
      specialize (IH (off + Z.of_nat (length from)) tail Htail).
      fold r1 in IH.
      rewrite (is_prefix_split _ _ Hpre) at 1. fold tail.
      split.
      * intros H. apply app_inv_head in H. f_equal. now apply IH.
      * intros H. injection H as H. f_equal. now apply IH.
    + rewrite (patch_scan_miss _ _ _ _ _ _ Hpre). cbn [fst snd].
      set (r1 := patch_scan fuel from to (off + 1) rest) in *.
      destruct (is_prefix to (b :: fst r1)) eqn:Hto.
      * rewrite (patch_scan_hit _ _ _ _ _ _ Hto). cbn [fst snd].
        split.
        -- intros H. rewrite <- H, is_prefix_app in Hpre. discriminate.
        -- intros H.
           pose proof (patch_scan_offsets_ge from to fuel (off + 1) rest)
             as Hge.
           fold r1 in Hge. rewrite <- H in Hge.
           inversion Hge; subst. lia.
      * rewrite (patch_scan_miss _ _ _ _ _ _ Hto). cbn [fst snd].
        specialize (IH (off + 1) rest ltac:(lia)). fold r1 in IH.
        split.
        -- intros H. injection H as H. now apply IH.
        -- intros H. f_equal. now apply IH.
Qed.

(** ** patch on byte sequences *)

Lemma patch_bytes_empty_from (buf to : list byte) :
  patch_bytes buf [] to = (buf, []).
Proof. reflexivity. Qed.

Lemma patch_bytes_length (buf from to : list byte) :
  length from = length to ->
  length (fst (patch_bytes buf from to)) = length buf.
Proof.
  intros Hlen. unfold patch_bytes.
  destruct from; [reflexivity|]. now apply patch_scan_length.
Qed.

Lemma patch_bytes_spaced (buf from to : list byte) :
  spaced (Z.of_nat (length from)) (snd (patch_bytes buf from to)).
Proof.
  unfold patch_bytes. destruct from; [exact I|]. apply patch_scan_spaced.
Qed.

(** [patch_bytes] never runs out of fuel: more fuel changes nothing. *)
Lemma patch_bytes_fuel (fuel : nat) (buf from to : list byte) :
  from <> [] -> (length buf <= fuel)%nat ->
  patch_scan fuel from to 0 buf = patch_bytes buf from to.
Proof.
  intros Hne Hfuel. unfold patch_bytes.
  destruct from as [|f from']; [contradiction|].
  apply patch_scan_fuel; [discriminate | exact Hfuel | lia].
Qed.

Lemma patch_bytes_offsets_nonneg (buf from to : list byte) :
  Forall (fun o => 0 <= o) (snd (patch_bytes buf from to)).
Proof.
  unfold patch_bytes. destruct from; [constructor|].
  apply patch_scan_offsets_ge.
Qed.

(** ** Loads and stores *)

Lemma load_bytes_length m p n : length (load_bytes m p n) = Z.to_nat n.
Proof. unfold load_bytes. now rewrite length_map, length_seq. Qed.

Lemma load_bytes_succ m p (k : nat) :
  load_bytes m p (Z.of_nat (S k)) = m p :: load_bytes m (p + 1) (Z.of_nat k).
Proof.
  unfold load_bytes. rewrite !Nat2Z.id. cbn [seq map].
  rewrite Z.add_0_r. f_equal.
  rewrite <- seq_shift, map_map. apply map_ext.
  intros i. f_equal. lia.
Qed.

Lemma load_bytes_to_nat m p n :
  load_bytes m p n = load_bytes m p (Z.of_nat (Z.to_nat n)).
Proof. unfold load_bytes. now rewrite Nat2Z.id. Qed.

Lemma store_bytes_below bs : forall m p q,
  q < p -> store_bytes m p bs q = m q.
Proof.
  induction bs as [|b bs IH]; intros m p q Hq; simpl; [reflexivity|].
  rewrite IH by lia. unfold poke.
  destruct (Z.eqb_spec q p); [lia | reflexivity].
Qed.

Lemma store_bytes_ext bs : forall m1 m2 p,
  (forall q, m1 q = m2 q) ->
  forall q, store_bytes m1 p bs q = store_bytes m2 p bs q.
Proof.
  induction bs as [|b bs IH]; intros m1 m2 p Hm q; simpl; [apply Hm|].
  apply IH. intros q'. unfold poke. destruct (Z.eqb q' p); [reflexivity|].
  apply Hm.
Qed.

Lemma load_bytes_ext m1 m2 p n :
  (forall q, m1 q = m2 q) -> load_bytes m1 p n = load_bytes m2 p n.
Proof. intros Hm. unfold load_bytes. apply map_ext. intros i. apply Hm. Qed.

(** Reading back what was just stored. *)
Lemma load_store_bytes bs : forall m p,
  load_bytes (store_bytes m p bs) p (Z.of_nat (length bs)) = bs.
Proof.
  induction bs as [|b bs IH]; intros m p; [reflexivity|].
  cbn [length]. rewrite load_bytes_succ. cbn [store_bytes].
  rewrite IH, store_bytes_below by lia.
  unfold poke. now rewrite Z.eqb_refl.
Qed.

(** Storing what was just read changes no byte. *)
Lemma store_load_bytes (k : nat) : forall m p q,
  store_bytes m p (load_bytes m p (Z.of_nat k)) q = m q.
Proof.
  induction k as [|k IH]; intros m p q; [reflexivity|].
  rewrite load_bytes_succ. cbn [store_bytes].
  rewrite (store_bytes_ext _ (poke m p (m p)) m).
  - apply IH.
  - intros q'. unfold poke. destruct (Z.eqb_spec q' p); congruence.
Qed.

(** On patterns of equal length, [patch] leaves in the buffer the bytes
    computed by [patch_bytes] and returns its offsets. *)
Lemma patch_view_bytes m this from to :
  length (view_bytes m from) = length (view_bytes m to) ->
  view_bytes (fst (patch m this from to)) this
    = fst (patch_bytes (view_bytes m this) (view_bytes m from)
             (view_bytes m to)) /\
  snd (patch m this from to)
    = snd (patch_bytes (view_bytes m this) (view_bytes m from)
             (view_bytes m to)).
Proof.
  intros Hlen. unfold patch.
  pose proof (patch_bytes_length (view_bytes m this) _ _ Hlen) as Hout.
  destruct (patch_bytes (view_bytes m this) _ _) as [out offs].
  cbn [fst snd] in *. split; [|reflexivity].
  unfold view_bytes at 1. rewrite load_bytes_to_nat.
  unfold view_bytes in Hout. rewrite load_bytes_length in Hout.
  rewrite <- Hout. apply load_store_bytes.
Qed.

(** C1: on the buffer [aaaa], patching [aa] to [bb] leaves [bbbb] and
    returns the offsets 0 and 2, on byte sequences and on any memory holding
    these bytes; in general each recorded offset lies at least the length of
    [from] after the previous one, so no match overlaps a span just
    written. *)
Theorem patch_aaaa_aa_bb :
  patch_bytes (list_byte_of_string "aaaa") (list_byte_of_string "aa")
              (list_byte_of_string "bb")
    = (list_byte_of_string "bbbb", [0; 2]) /\
  (forall (m : mem) (this : byte_data) (from to : byte_view),
     view_bytes m this = list_byte_of_string "aaaa" ->
     view_bytes m from = list_byte_of_string "aa" ->
     view_bytes m to = list_byte_of_string "bb" ->
     view_bytes (fst (patch m this from to)) this
       = list_byte_of_string "bbbb" /\
     snd (patch m this from to) = [0; 2]) /\
  (forall buf from to : list byte,
     spaced (Z.of_nat (length from)) (snd (patch_bytes buf from to))).
Proof.
  split; [reflexivity|]. split; [|apply patch_bytes_spaced].
  intros m this from to Hthis Hfrom Hto.
  destruct (patch_view_bytes m this from to) as [Hb Ho].
  - now rewrite Hfrom, Hto.
  - rewrite Hb, Ho, Hthis, Hfrom, Hto. split; reflexivity.
Qed.

(** C6: with an empty [from], [patch] replaces nothing: the byte sequence
    is returned as it was with no offset, for every [to]; on memory, no byte
    changes and the offset list is empty. *)
Theorem patch_empty_from :
  (forall buf to : list byte, patch_bytes buf [] to = (buf, [])) /\
  (forall (m : mem) (this : byte_data) (from to : byte_view),
     _sz from = 0 ->
     snd (patch m this from to) = [] /\
     (forall q, fst (patch m this from to) q = m q) /\
     view_bytes (fst (patch m this from to)) this = view_bytes m this).
Proof.
  split; [reflexivity|].
  intros m this from to Hsz.
  assert (Hfrom : view_bytes m from = [])
    by (unfold view_bytes; rewrite Hsz; reflexivity).
  unfold patch. rewrite Hfrom. cbn [patch_bytes fst snd].
  assert (Hq : forall q, store_bytes m (_buf this) (view_bytes m this) q = m q).
  { unfold view_bytes. rewrite load_bytes_to_nat. apply store_load_bytes. }
  split; [reflexivity|]. split; [exact Hq|].
  unfold view_bytes at 1. now apply load_bytes_ext.
Qed.

(** For patterns of equal length, patching [from] to [to] and then [to] to
    [from] gives back the original bytes exactly when the second call
    returns the offsets of the first. *)
Lemma patch_roundtrip_iff (buf from to : list byte) :
  length from = length to ->
  fst (patch_bytes (fst (patch_bytes buf from to)) to from) = buf
  <->
  snd (patch_bytes (fst (patch_bytes buf from to)) to from)
    = snd (patch_bytes buf from to).
Proof.
  intros Hlen.
  pose proof (patch_bytes_length buf from to Hlen) as Hout.
  unfold patch_bytes in *.
  destruct from as [|f from']; destruct to as [|t to']; try discriminate.
  - tauto.
  - rewrite Hout.
    apply patch_scan_roundtrip; [exact Hlen | discriminate | lia].
Qed.




(** ** Ownership accounting *)

Lemma insert_one_Permutation {T} (l : list T) i x y :
  l !! i = Some x -> x :: <[i := y]> l ≡ₚ y :: l.
Proof.
  intros Hi.
  pose proof (Permutation_insert_swap (y :: l) 0%nat (S i) y x) as H.
  simpl in H. now apply H.
Qed.

Lemma owned_step w op w' :
  scope_step w op = Some w' ->
  released w' ++ owned w' ≡ₚ released w ++ owned w.
Proof.
  destruct op as [src|dst src|i]; unfold scope_step, owned.
  - destruct (objs w !! src) as [[o|]|] eqn:Hsrc; try discriminate.
    destruct o as [p n]. intros [= <-]. cbn [objs released].
    apply Permutation_app_head.
    rewrite omap_app. cbn.
    pose proof (insert_one_Permutation (objs w) src _
                  (Some byte_view_default) Hsrc) as H.
    apply (omap_Permutation owned_ptr) in H. cbn in H.
    destruct (Z.eqb p nullptr).
    + rewrite app_nil_r. exact H.
    + rewrite <- Permutation_cons_append. exact H.
  - destruct (objs w !! dst) as [[this|]|] eqn:Hdst; try discriminate.
    destruct (objs w !! src) as [[o|]|] eqn:Hsrc; try discriminate.
    destruct this, o. intros [= <-]. cbn [objs released].
    apply Permutation_app_head.
    apply omap_Permutation.
    now apply Permutation_insert_swap.
  - destruct (objs w !! i) as [[this|]|] eqn:Hi; try discriminate.
    intros [= <-]. cbn [objs released].
    pose proof (insert_one_Permutation (objs w) i _ None Hi) as H.
    apply (omap_Permutation owned_ptr) in H. cbn in H.
    unfold heap_data_delete, free.
    destruct (Z.eqb (_buf this) nullptr).
    + now apply Permutation_app_head.
    + rewrite <- H. cbn. now rewrite Permutation_middle.
Qed.

Lemma owned_run ops : forall w w',
  scope_run w ops = Some w' ->
  released w' ++ owned w' ≡ₚ released w ++ owned w.
Proof.
  induction ops as [|op ops IH]; intros w w' Hrun; simpl in Hrun.
  - now injection Hrun as <-.
  - destruct (scope_step w op) as [w1|] eqn:Hstep; [|discriminate].
    rewrite (IH _ _ Hrun). now apply (owned_step w op).
Qed.

Lemma scope_exit_owned w : owned (scope_exit w) = [].
Proof.
  unfold owned, scope_exit. cbn [objs].
  induction (objs w) as [|slot l IH]; [reflexivity|]. exact IH.
Qed.

Lemma scope_exit_released w :
  released (scope_exit w) ≡ₚ released w ++ owned w.
Proof.
  unfold owned, scope_exit. cbn [released].
  induction (objs w) as [|slot l IH]; cbn.
  - now rewrite app_nil_r.
  - destruct slot as [this|]; [|exact IH].
    unfold heap_data_delete at 1. unfold free, owned_ptr at 1.
    destruct (Z.eqb (_buf this) nullptr); [exact IH|].
    rewrite IH. apply Permutation_middle.
Qed.

(** C5, as amended: move construction hands the (reference, length) pair
    to the new object and leaves the source with a null reference and zero
    length, so destroying the source releases nothing; move assignment
    exchanges the pairs of destination and source, so the source ends up
    empty only when the destination was; along any sequence of moves and
    destructions, once the scope is left every allocation owned at the
    start has been released exactly once and nothing else has. *)
Theorem heap_data_move_releases_once :
  (forall o : heap_data,
     heap_data_move o = (o, byte_view_default) /\
     forall log, heap_data_delete (snd (heap_data_move o)) log = log) /\
  (forall this o : heap_data, heap_data_move_assign this o = (o, this)) /\
  (forall this o : heap_data,
     this = byte_view_default ->
     snd (heap_data_move_assign this o) = byte_view_default) /\
  (forall (w w' : scope) (ops : list move_op),
     released w = [] -> NoDup (owned w) ->
     scope_run w ops = Some w' ->
     released (scope_exit w') ≡ₚ owned w /\
     NoDup (released (scope_exit w'))).
Proof.
  split; [|split; [|split]].
  - intros [p n]. split; reflexivity.
  - intros [p n] [q k]. reflexivity.
  - intros this [q k] ->. reflexivity.
  - intros w w' ops Hrel Hnd Hrun.
    assert (H : released (scope_exit w') ≡ₚ owned w).
    { rewrite scope_exit_released, (owned_run _ _ _ Hrun), Hrel.
      reflexivity. }
    split; [exact H|]. now rewrite H.
Qed.

Lemma heap_data_move_releases_once_witness :
  released scope_two = [] /\
  NoDup (owned scope_two) /\
  exists w',
    scope_run scope_two moves_example = Some w' /\
    released (scope_exit w') ≡ₚ owned scope_two /\
    NoDup (released (scope_exit w')).
Proof.
  assert (Hnd : NoDup (owned scope_two)).
  { vm_compute. apply NoDup_cons. split; [|apply NoDup_singleton].
    intros H. apply list_elem_of_singleton in H. discriminate. }
  split; [reflexivity|]. split; [exact Hnd|].
  eexists. split; [reflexivity|].
  exact (proj2 (proj2 (proj2 heap_data_move_releases_once))
           scope_two _ moves_example eq_refl Hnd eq_refl).
Defined.

(** C5 as stated fails for move assignment onto a buffer that holds
    storage: the source receives the destination's former pair, and
    destroying it releases that allocation. *)
Lemma heap_data_move_assign_counterexample :
  snd (heap_data_move_assign (mk_byte_view 4096 4) (mk_byte_view 8192 8))
    = mk_byte_view 4096 4 /\
  snd (heap_data_move_assign (mk_byte_view 4096 4) (mk_byte_view 8192 8))
    <> byte_view_default /\
  heap_data_delete
    (snd (heap_data_move_assign (mk_byte_view 4096 4) (mk_byte_view 8192 8)))
    [] = [4096].
Proof. repeat split. discriminate. Qed.

(** ** Allocation failure *)

(** C4, as amended: the constructor of an owning buffer always returns,
    with whatever [malloc] answered as its reference and the requested size
    as its length; when the allocation fails the buffer has a null
    reference and still the requested length, and no error is reported. *)
Theorem heap_data_new_on_failure {A} `{!Allocator A} (a : A) (sz : Z) :
  heap_data_new a sz = (mk_byte_view (fst (malloc a sz)) sz, snd (malloc a sz))
  /\
  (fst (malloc a sz) = nullptr ->
   heap_data_new a sz = (mk_byte_view nullptr sz, snd (malloc a sz))).
Proof.
  unfold heap_data_new, byte_data_raw, byte_view_raw.
  destruct (malloc a sz) as [p a']. cbn [fst snd].
  split; [reflexivity|]. now intros ->.
Qed.

Lemma heap_data_new_on_failure_witness :
  fst (malloc arena_small 16) = nullptr /\
  heap_data_new arena_small 16 = (mk_byte_view nullptr 16, arena_small).
Proof.
  assert (H : fst (malloc arena_small 16) = nullptr) by reflexivity.
  split; [exact H|].
  exact (proj2 (heap_data_new_on_failure arena_small 16) H).
Defined.

(** C4 as stated fails: with eight bytes left, a request for sixteen makes
    [malloc] answer [nullptr], and the constructor returns a buffer
    all the same. *)
Lemma heap_data_new_failure_counterexample :
  fst (malloc arena_small 16) = nullptr /\
  exists (d : heap_data) (a' : arena),
    heap_data_new arena_small 16 = (d, a') /\
    _buf d = nullptr /\ _sz d = 16.
Proof.
  split; [reflexivity|].
  exists (mk_byte_view nullptr 16), arena_small. repeat split.
Qed.

(** ** Inline buffers *)








(** ** Empty needles *)

Lemma strlen_empty fuel m s : m s = NUL -> strlen (S fuel) m s = Some 0.
Proof. intros H. simpl. now rewrite H. Qed.

Lemma view_bytes_empty m v : _sz v = 0 -> view_bytes m v = [].
Proof. intros H. unfold view_bytes. now rewrite H. Qed.

Lemma view_bytes_one m s : view_bytes m (mk_byte_view s 1) = [m s].
Proof.
  unfold view_bytes, load_bytes. simpl. now rewrite Z.add_0_r.
Qed.

(** C9, as amended: a needle of length zero is contained in every view,
    also in a view of length zero.  The needle that the default conversion
    builds from the empty C string is not that one: it has length one and
    holds the terminator, so it is contained exactly in the views that hold
    a zero byte; only with the terminator option off is the needle empty. *)
Theorem contains_empty_needle :
  (forall (m : mem) (v pattern : byte_view),
     _sz pattern = 0 -> contains m v pattern = true) /\
  (forall (fuel : nat) (m : mem) (s : ptr),
     m s = NUL ->
     byte_view_of_cstr (S fuel) m s true = Some (mk_byte_view s 1) /\
     byte_view_of_cstr (S fuel) m s false = Some (mk_byte_view s 0)) /\
  (forall (m : mem) (v : byte_view) (s : ptr),
     m s = NUL ->
     contains m v (mk_byte_view s 1) = true <-> In NUL (view_bytes m v)).
Proof.
  split; [|split].
  - intros m v pattern Hsz. unfold contains.
    rewrite (view_bytes_empty m pattern Hsz).
    apply contains_bytes_nil_needle.
  - intros fuel m s Hs.
    unfold byte_view_of_cstr, string_view_of_cstr.
    rewrite (strlen_empty fuel m s Hs). split; reflexivity.
  - intros m v s Hs. unfold contains.
    rewrite view_bytes_one, Hs. apply contains_bytes_single.
Qed.

Lemma contains_empty_needle_witness :
  _sz byte_view_default = 0 /\
  contains mem_abc0 byte_view_default byte_view_default = true.
Proof.
  split; [reflexivity|].
  exact (proj1 contains_empty_needle mem_abc0 byte_view_default
           byte_view_default eq_refl).
Defined.

(** C9 as stated fails: the empty C string at address 19 converts to the
    one-byte needle holding the terminator, which is found neither in the
    view of length zero nor in the view of the three bytes [abc]. *)
Lemma contains_empty_cstr_counterexample :
  mem_abc0 19 = NUL /\
  byte_view_of_cstr 1 mem_abc0 19 true = Some (mk_byte_view 19 1) /\
  contains mem_abc0 byte_view_default (mk_byte_view 19 1) = false /\
  view_bytes mem_abc0 (mk_byte_view 16 3) = list_byte_of_string "abc" /\
  contains mem_abc0 (mk_byte_view 16 3) (mk_byte_view 19 1) = false.
Proof. repeat split. Qed.

(** ** Remaining witnesses and counterexamples for patch *)

Lemma patch_aaaa_aa_bb_witness :
  view_bytes mem_patch (mk_byte_view 32 4) = list_byte_of_string "aaaa" /\
  view_bytes mem_patch (mk_byte_view 48 2) = list_byte_of_string "aa" /\
  view_bytes mem_patch (mk_byte_view 64 2) = list_byte_of_string "bb" /\
  view_bytes
    (fst (patch mem_patch (mk_byte_view 32 4) (mk_byte_view 48 2)
            (mk_byte_view 64 2)))
    (mk_byte_view 32 4) = list_byte_of_string "bbbb" /\
  snd (patch mem_patch (mk_byte_view 32 4) (mk_byte_view 48 2)
         (mk_byte_view 64 2)) = [0; 2].
Proof.
  split; [reflexivity|]. split; [reflexivity|]. split; [reflexivity|].
  exact (proj1 (proj2 patch_aaaa_aa_bb) mem_patch (mk_byte_view 32 4)
           (mk_byte_view 48 2) (mk_byte_view 64 2) eq_refl eq_refl eq_refl).
Defined.

Lemma patch_empty_from_witness :
  _sz byte_view_default = 0 /\
  snd (patch mem_abc (mk_byte_view 16 3) byte_view_default
         (mk_byte_view 16 1)) = [].
Proof.
  split; [reflexivity|].
  exact (proj1 (proj2 patch_empty_from mem_abc (mk_byte_view 16 3)
                  byte_view_default (mk_byte_view 16 1) eq_refl)).
Defined.



Example patch_roundtrip_aab :
  patch_bytes (list_byte_of_string "aab") (list_byte_of_string "ab")
    (list_byte_of_string "aa") = (list_byte_of_string "aaa", [1]) /\
  patch_bytes (list_byte_of_string "aaa") (list_byte_of_string "aa")
    (list_byte_of_string "ab") = (list_byte_of_string "aba", [0]).
Proof. split; reflexivity. Qed.

(** * Further properties *)

(** ** dynamic_bitset *)

Section DynamicBitsetFacts.
Variable sizeof_ulong : positive.

Local Abbreviation ss := (slot_size sizeof_ulong).

Lemma slot_size_pos : (0 < ss)%nat.
Proof. unfold slot_size. lia. Qed.

Lemma split_position (p q : nat) :
  (p / ss = q / ss)%nat -> (p mod ss = q mod ss)%nat -> p = q.
Proof.
  intros Hd Hm.
  rewrite (Nat.div_mod_eq p ss), (Nat.div_mod_eq q ss). now rewrite Hd, Hm.
Qed.

Lemma position_div (s i : nat) : (i < ss)%nat -> ((s * ss + i) / ss = s)%nat.
Proof.
  intros Hi. rewrite Nat.div_add_l by lia. rewrite Nat.div_small by lia. lia.
Qed.

Lemma position_mod (s i : nat) : (i < ss)%nat -> ((s * ss + i) mod ss = i)%nat.
Proof.
  intros Hi. rewrite Nat.add_comm, Nat.Div0.mod_add.
  now apply Nat.mod_small.
Qed.

Lemma resize_grow (l : list Z) (n : nat) :
  (length l <= n)%nat -> resize l n = l ++ replicate (n - length l) 0.
Proof. intros Hn. unfold resize. now rewrite take_ge. Qed.

Lemma length_resize (l : list Z) (n : nat) : length (resize l n) = n.
Proof.
  unfold resize. rewrite length_app, length_take, length_replicate. lia.
Qed.

Lemma default_lookup_resize (l : list Z) (n i : nat) :
  (length l <= n)%nat ->
  default 0 (resize l n !! i) = default 0 (l !! i).
Proof.
  intros Hn. rewrite resize_grow by exact Hn.
  destruct (Nat.lt_ge_cases i (length l)) as [Hi|Hi].
  - now rewrite lookup_app_l.
  - rewrite lookup_app_r by exact Hi.
    rewrite (lookup_ge_None_2 l i) by exact Hi.
    destruct (replicate _ _ !! _) as [x|] eqn:E; [|reflexivity].
    apply lookup_replicate in E as [-> _]. reflexivity.
Qed.

Lemma get_slot_list (b : dynamic_bitset_impl) (pos : nat) :
  slot_list (fst (get sizeof_ulong b pos)) =
    if (length (slot_list b) <=? pos / ss)%nat
    then resize (slot_list b) (pos / ss + 1)
    else slot_list b.
Proof. reflexivity. Qed.

Lemma get_default_lookup (b : dynamic_bitset_impl) (pos i : nat) :
  default 0 (slot_list (fst (get sizeof_ulong b pos)) !! i)
    = default 0 (slot_list b !! i).
Proof.
  rewrite get_slot_list.
  destruct (Nat.leb_spec (length (slot_list b)) (pos / ss)); [|reflexivity].
  apply default_lookup_resize. lia.
Qed.

Lemma slots_get (b : dynamic_bitset_impl) (pos : nat) :
  slots (fst (get sizeof_ulong b pos)) = Nat.max (slots b) (pos / ss + 1).
Proof.
  unfold slots. rewrite get_slot_list.
  destruct (Nat.leb_spec (length (slot_list b)) (pos / ss)).
  - rewrite length_resize. lia.
  - lia.
Qed.

Lemma get_const_alt (b : dynamic_bitset_impl) (q : nat) :
  get_const sizeof_ulong b q =
    Z.testbit (default 0 (slot_list b !! (q / ss)%nat)) (Z.of_nat (q mod ss)).
Proof.
  unfold get_const.
  destruct (Nat.ltb_spec (q / ss) (length (slot_list b))); [reflexivity|].
  rewrite lookup_ge_None_2 by lia. simpl. now rewrite Z.bits_0.
Qed.

(** X1: reading a bit through the non-const [operator[]] gives the bit the
    const one reports and changes no bit, but it leaves the bitset with at
    least [pos / slot_size + 1] slots. *)
Theorem bitset_read_grows (b : dynamic_bitset_impl) (pos : nat) :
  snd (bitset_read sizeof_ulong b pos) = get_const sizeof_ulong b pos /\
  (forall q, get_const sizeof_ulong (fst (bitset_read sizeof_ulong b pos)) q
             = get_const sizeof_ulong b q) /\
  slots (fst (bitset_read sizeof_ulong b pos))
    = Nat.max (slots b) (pos / ss + 1).
Proof.
  unfold bitset_read.
  destruct (get sizeof_ulong b pos) as [b' r] eqn:E.
  assert (Hb : b' = fst (get sizeof_ulong b pos)) by now rewrite E.
  assert (Hr : r = snd (get sizeof_ulong b pos)) by now rewrite E.
  cbn [fst snd]. split; [|split].
  - rewrite get_const_alt. unfold ref_read. rewrite Hr, Hb.
    cbn [get snd ref_slot ref_index]. apply f_equal2; [|reflexivity].
    apply get_default_lookup.
  - intros q. rewrite !get_const_alt, Hb. now rewrite get_default_lookup.
  - rewrite Hb. apply slots_get.
Qed.

Lemma bitset_assign_slot_list (b : dynamic_bitset_impl) pos v :
  slot_list (bitset_assign sizeof_ulong b pos v) =
    alter (fun x => if v then Z.setbit x (Z.of_nat (pos mod ss))
                    else Z.clearbit x (Z.of_nat (pos mod ss)))
          (pos / ss)%nat (slot_list (fst (get sizeof_ulong b pos))).
Proof. reflexivity. Qed.

Lemma get_slot_present (b : dynamic_bitset_impl) pos :
  (pos / ss < length (slot_list (fst (get sizeof_ulong b pos))))%nat.
Proof.
  pose proof (slots_get b pos) as H. unfold slots in H. lia.
Qed.

Lemma testbit_write (x : Z) (i j : nat) (v : bool) :
  Z.testbit (if v then Z.setbit x (Z.of_nat i) else Z.clearbit x (Z.of_nat i))
            (Z.of_nat j)
  = if Nat.eqb i j then v else Z.testbit x (Z.of_nat j).
Proof.
  destruct (Nat.eqb_spec i j) as [->|Hne]; destruct v.
  - apply Z.setbit_eq. lia.
  - apply Z.clearbit_eq.
  - apply Z.setbit_neq; lia.
  - apply Z.clearbit_neq. lia.
Qed.

Lemma bitset_assign_same (b : dynamic_bitset_impl) (pos : nat) (v : bool) :
  get_const sizeof_ulong (bitset_assign sizeof_ulong b pos v) pos = v.
Proof.
  pose proof (get_slot_present b pos) as Hin.
  rewrite get_const_alt, bitset_assign_slot_list.
  rewrite list_lookup_alter_eq.
  destruct (lookup_lt_is_Some_2 _ _ Hin) as [x Hx]. rewrite Hx. simpl.
  rewrite testbit_write. now rewrite Nat.eqb_refl.
Qed.

Lemma bitset_assign_other (b : dynamic_bitset_impl) (pos q : nat) (v : bool) :
  q <> pos ->
  get_const sizeof_ulong (bitset_assign sizeof_ulong b pos v) q
    = get_const sizeof_ulong b q.
Proof.
  pose proof (get_slot_present b pos) as Hin.
  intros Hq. rewrite !get_const_alt, bitset_assign_slot_list.
  destruct (Nat.eq_dec (pos / ss)%nat (q / ss)%nat) as [Hs|Hs].
  - rewrite <- Hs, list_lookup_alter_eq.
    rewrite <- (get_default_lookup b pos (pos / ss)%nat).
    destruct (lookup_lt_is_Some_2 _ _ Hin) as [x Hx]. rewrite Hx. simpl.
    rewrite testbit_write.
    destruct (Nat.eqb_spec (pos mod ss) (q mod ss)) as [Hm|Hm];
      [|reflexivity].
    exfalso. apply Hq. symmetry. now apply split_position.
  - rewrite list_lookup_alter_ne by exact Hs.
    apply f_equal2; [|reflexivity]. apply get_default_lookup.
Qed.

(** X2: after [bs[pos] = v] the bit at [pos] reads [v] and every other bit
    reads as before; the bitset then has
    [max(slots, pos / slot_size + 1)] slots. *)
Theorem bitset_assign_read (b : dynamic_bitset_impl) (pos : nat) (v : bool) :
  get_const sizeof_ulong (bitset_assign sizeof_ulong b pos v) pos = v /\
  (forall q, q <> pos ->
     get_const sizeof_ulong (bitset_assign sizeof_ulong b pos v) q
       = get_const sizeof_ulong b q) /\
  slots (bitset_assign sizeof_ulong b pos v)
    = Nat.max (slots b) (pos / ss + 1).
Proof.
  split; [apply bitset_assign_same|].
  split; [intros q Hq; now apply bitset_assign_other|].
  unfold slots. rewrite bitset_assign_slot_list, length_alter.
  apply slots_get.
Qed.

Lemma get_slot_default (b : dynamic_bitset_impl) (s : nat) :
  get_slot b s = default 0 (slot_list b !! s).
Proof.
  unfold get_slot.
  destruct (Nat.ltb_spec s (length (slot_list b))); [reflexivity|].
  now rewrite lookup_ge_None_2 by lia.
Qed.

(** X3: [get_slot] packs the bits of one slot: bit [i] of slot [s] is the
    bit at position [s * slot_size + i], and a slot that was never
    allocated reads as zero. *)
Theorem get_slot_bits (b : dynamic_bitset_impl) (s : nat) :
  (forall i, (i < ss)%nat ->
     Z.testbit (get_slot b s) (Z.of_nat i)
       = get_const sizeof_ulong b (s * ss + i)) /\
  ((slots b <= s)%nat -> get_slot b s = 0).
Proof.
  split.
  - intros i Hi. rewrite get_const_alt, get_slot_default.
    now rewrite position_div, position_mod.
  - intros Hs. unfold slots in Hs. rewrite get_slot_default.
    now rewrite lookup_ge_None_2.
Qed.

(** X4: [emplace_back(l)] adds one slot holding the low [slot_size] bits
    of [l]: the new slot reads back as [l mod 2^slot_size], its bit [i] is
    bit [i] of [l], and the bits of the other slots are unchanged. *)
Theorem emplace_back_bits (b : dynamic_bitset_impl) (l : Z) :
  slots (emplace_back sizeof_ulong b l) = S (slots b) /\
  get_slot (emplace_back sizeof_ulong b l) (slots b)
    = l mod 2 ^ Z.of_nat ss /\
  (forall i, (i < ss)%nat ->
     get_const sizeof_ulong (emplace_back sizeof_ulong b l)
               (slots b * ss + i)
       = Z.testbit l (Z.of_nat i)) /\
  (forall q, (q / ss)%nat <> slots b ->
     get_const sizeof_ulong (emplace_back sizeof_ulong b l) q
       = get_const sizeof_ulong b q).
Proof.
  assert (Hnew : default 0 (slot_list (emplace_back sizeof_ulong b l)
                              !! slots b)
                 = l mod 2 ^ Z.of_nat ss).
  { unfold emplace_back, slots. cbn [slot_list].
    rewrite lookup_app_r by lia. now rewrite Nat.sub_diag. }
  split; [|split; [|split]].
  - unfold slots, emplace_back. cbn [slot_list].
    rewrite length_app. simpl. lia.
  - now rewrite get_slot_default.
  - intros i Hi. rewrite get_const_alt, position_div, position_mod by exact Hi.
    rewrite Hnew. apply Z.mod_pow2_bits_low. lia.
  - intros q Hq. rewrite !get_const_alt. apply f_equal2; [|reflexivity].
    unfold emplace_back, slots in *. cbn [slot_list].
    destruct (Nat.lt_ge_cases (q / ss) (length (slot_list b))) as [Hlt|Hge].
    + now rewrite lookup_app_l.
    + rewrite (lookup_ge_None_2 (slot_list b)) by exact Hge.
      rewrite lookup_ge_None_2; [reflexivity|].
      rewrite length_app. simpl. lia.
Qed.

Lemma in_range_as_mod (n x : Z) :
  0 <= n -> (0 <= x < 2 ^ n <-> x mod 2 ^ n = x).
Proof.
  intros Hn. split.
  - intros Hx. now apply Z.mod_small.
  - intros Hx. rewrite <- Hx. apply Z.mod_pos_bound. lia.
Qed.

Lemma write_in_range (n : nat) (x : Z) (i : nat) (v : bool) :
  0 <= x < 2 ^ Z.of_nat n -> (i < n)%nat ->
  0 <= (if v then Z.setbit x (Z.of_nat i) else Z.clearbit x (Z.of_nat i))
    < 2 ^ Z.of_nat n.
Proof.
  intros Hx Hi. apply in_range_as_mod; [lia|].
  apply (in_range_as_mod (Z.of_nat n)) in Hx; [|lia].
  apply Z.bits_inj'. intros k Hk.
  destruct (Z.lt_ge_cases k (Z.of_nat n)) as [Hlt|Hge].
  - now apply Z.mod_pow2_bits_low.
  - rewrite Z.mod_pow2_bits_high by lia.
    rewrite <- (Z2Nat.id k) by exact Hk.
    rewrite testbit_write.
    destruct (Nat.eqb_spec i (Z.to_nat k)) as [E|E]; [lia|].
    rewrite <- Hx. rewrite Z.mod_pow2_bits_high; [reflexivity|lia].
Qed.

Lemma resize_in_range (l : list Z) (n : nat) :
  Forall (fun x => 0 <= x < 2 ^ Z.of_nat ss) l ->
  Forall (fun x => 0 <= x < 2 ^ Z.of_nat ss) (resize l n).
Proof.
  intros Hl. unfold resize. apply Forall_app. split.
  - now apply Forall_take.
  - apply Forall_replicate. split; [lia|]. apply Z.pow_pos_nonneg; lia.
Qed.

(** X5: the operations keep every slot within [slot_size] bits, so
    [get_slot] always answers a value below [2^slot_size], which
    [to_ulong()] can return. *)
Theorem slots_stay_in_range (b : dynamic_bitset_impl) :
  slots_in_range sizeof_ulong b ->
  (forall s, 0 <= get_slot b s < 2 ^ Z.of_nat ss) /\
  (forall l, slots_in_range sizeof_ulong (emplace_back sizeof_ulong b l)) /\
  (forall pos,
     slots_in_range sizeof_ulong (fst (bitset_read sizeof_ulong b pos))) /\
  (forall pos v,
     slots_in_range sizeof_ulong (bitset_assign sizeof_ulong b pos v)).
Proof.
  unfold slots_in_range. intros Hb.
  assert (Hpow : 0 < 2 ^ Z.of_nat ss) by (apply Z.pow_pos_nonneg; lia).
  assert (Hget : forall pos,
            Forall (fun x => 0 <= x < 2 ^ Z.of_nat ss)
                   (slot_list (fst (get sizeof_ulong b pos)))).
  { intros pos. rewrite get_slot_list.
    destruct (_ <=? _)%nat; [now apply resize_in_range | exact Hb]. }
  split; [|split; [|split]].
  - intros s. rewrite get_slot_default.
    destruct (slot_list b !! s) as [x|] eqn:E; simpl; [|lia].
    exact (proj1 (Forall_lookup _ _) Hb s x E).
  - intros l. unfold emplace_back. cbn [slot_list].
    apply Forall_app. split; [exact Hb|].
    apply Forall_singleton. unfold slot_bits_of.
    apply Z.mod_pos_bound. exact Hpow.
  - intros pos. unfold bitset_read.
    destruct (get sizeof_ulong b pos) as [b' r] eqn:E. cbn [fst].
    specialize (Hget pos). now rewrite E in Hget.
  - intros pos v. rewrite bitset_assign_slot_list.
    apply Forall_alter; [apply Hget|].
    intros x _ Hx. apply write_in_range; [exact Hx|].
    apply Nat.mod_upper_bound. pose proof slot_size_pos. lia.
Qed.

Lemma bitset_assign_true_read (b : dynamic_bitset_impl) (pos q : nat) :
  get_const sizeof_ulong (bitset_assign sizeof_ulong b pos true) q
    = Nat.eqb pos q || get_const sizeof_ulong b q.
Proof.
  destruct (Nat.eqb_spec pos q) as [<-|Hne]; [apply bitset_assign_same|].
  apply bitset_assign_other. congruence.
Qed.

(** X6: a bitset filled by setting the positions of a list, one after the
    other, starting from the empty bitset, has exactly those bits set. *)
Theorem bitset_of_positions (ps : list nat) (q : nat) :
  get_const sizeof_ulong
    (fold_left (fun b p => bitset_assign sizeof_ulong b p true) ps
               dynamic_bitset_empty) q = true
  <-> In q ps.
Proof.
  assert (Hgen : forall b,
    get_const sizeof_ulong
      (fold_left (fun b p => bitset_assign sizeof_ulong b p true) ps b) q
    = true <-> get_const sizeof_ulong b q = true \/ In q ps).
  { induction ps as [|p ps IH]; intros b; cbn [fold_left In].
    - tauto.
    - rewrite IH, bitset_assign_true_read, orb_true_iff, Nat.eqb_eq. tauto. }
  rewrite Hgen. rewrite get_const_alt. simpl. rewrite Z.bits_0.
  split; [intros [H|H]; [discriminate|exact H] | tauto].
Qed.

End DynamicBitsetFacts.

(** ** String helpers *)

Lemma byte_to_N_inj (x y : byte) : Byte.to_N x = Byte.to_N y -> x = y.
Proof.
  intros H. pose proof (Byte.of_to_N x) as Hx.
  rewrite H, Byte.of_to_N in Hx. congruence.
Qed.

Lemma sv_compare_eq (a b : list byte) : sv_compare a b = Eq <-> a = b.
Proof.
  revert b. induction a as [|x a IH]; intros [|y b]; simpl;
    try (split; [discriminate | congruence]); [tauto|].
  destruct (N.compare (Byte.to_N x) (Byte.to_N y)) eqn:E.
  - apply N.compare_eq_iff, byte_to_N_inj in E. subst y.
    rewrite IH. split; congruence.
  - split; [discriminate|]. intros [= -> _].
    rewrite N.compare_refl in E. discriminate.
  - split; [discriminate|]. intros [= -> _].
    rewrite N.compare_refl in E. discriminate.
Qed.

Lemma is_Eq_sv_compare (a b : list byte) :
  is_Eq (sv_compare a b) = true <-> a = b.
Proof.
  rewrite <- sv_compare_eq. destruct (sv_compare a b); simpl;
    split; congruence.
Qed.

Lemma is_prefix_iff (p s : list byte) :
  is_prefix p s = true <-> exists t, s = p ++ t.
Proof.
  split.
  - intros H. eexists. now apply is_prefix_split.
  - intros [t ->]. apply is_prefix_app.
Qed.

Lemma take_prefix_iff (p s : list byte) :
  take (length p) s = p <-> exists t, s = p ++ t.
Proof.
  split.
  - intros H. exists (drop (length p) s).
    rewrite <- H at 1. now rewrite take_drop.
  - intros [t ->]. apply take_app_length.
Qed.

Lemma drop_suffix_iff (p s : list byte) :
  (length p <= length s)%nat ->
  drop (length s - length p) s = p <-> exists t, s = t ++ p.
Proof.
  intros Hlen. split.
  - intros H. exists (take (length s - length p) s).
    transitivity (take (length s - length p) s
                  ++ drop (length s - length p) s);
      [symmetry; apply take_drop | now rewrite H].
  - intros [t ->]. rewrite length_app.
    replace (length t + length p - length p)%nat with (length t) by lia.
    apply drop_app_length.
Qed.

Lemma str_starts_eval (s ss : list byte) :
  str_starts s ss =
    Some (if Z.geb (Z.of_nat (length s)) (Z.of_nat (length ss))
          then is_Eq (sv_compare (take (length ss) s) ss)
          else false).
Proof.
  unfold str_starts, sv_compare_at, sv_substr.
  destruct (Z.geb_spec (Z.of_nat (length s)) (Z.of_nat (length ss)));
    [|reflexivity].
  destruct (Z.leb_spec 0 (Z.of_nat (length s))); [|lia]. cbn [option_map].
  rewrite Z.sub_0_r, Z.min_l by lia. now rewrite Nat2Z.id.
Qed.

Lemma str_starts_true_iff (s ss : list byte) :
  str_starts s ss = Some true <-> exists t, s = ss ++ t.
Proof.
  rewrite str_starts_eval, <- take_prefix_iff.
  destruct (Z.geb_spec (Z.of_nat (length s)) (Z.of_nat (length ss)))
    as [Hge|Hlt].
  - rewrite <- is_Eq_sv_compare. split; congruence.
  - split; [discriminate|]. intros Htake.
    apply (f_equal length) in Htake. rewrite length_take in Htake. lia.
Qed.

Lemma str_ends_eval (s ss : list byte) :
  Z.of_nat (length s) <= SIZE_MAX ->
  str_ends s ss =
    Some (if Z.geb (Z.of_nat (length s)) (Z.of_nat (length ss))
          then is_Eq (sv_compare (drop (length s - length ss) s) ss)
          else false).
Proof.
  intros Hsz. unfold str_ends, sv_compare_at, sv_substr.
  destruct (Z.geb_spec (Z.of_nat (length s)) (Z.of_nat (length ss)));
    [|reflexivity].
  destruct (Z.leb_spec (Z.of_nat (length s) - Z.of_nat (length ss))
              (Z.of_nat (length s))); [|lia].
  cbn [option_map]. unfold npos. rewrite Z.min_r by lia.
  replace (Z.of_nat (length s) -
           (Z.of_nat (length s) - Z.of_nat (length ss)))
    with (Z.of_nat (length ss)) by lia.
  rewrite <- Nat2Z.inj_sub by lia. rewrite !Nat2Z.id.
  rewrite take_ge; [reflexivity|]. rewrite length_drop. lia.
Qed.

Lemma str_ends_true_iff (s ss : list byte) :
  Z.of_nat (length s) <= SIZE_MAX ->
  str_ends s ss = Some true <-> exists t, s = t ++ ss.
Proof.
  intros Hsz. rewrite str_ends_eval by exact Hsz.
  destruct (Z.geb_spec (Z.of_nat (length s)) (Z.of_nat (length ss)))
    as [Hge|Hlt].
  - rewrite <- drop_suffix_iff by lia.
    rewrite <- is_Eq_sv_compare. split; congruence.
  - split; [discriminate|]. intros [t ->].
    rewrite length_app in *. lia.
Qed.

(** X7: [str_starts] never lets [std::out_of_range] escape, and answers
    true exactly when the text begins with the pattern; in particular it is
    true for the empty pattern and false for a pattern longer than the
    text. *)
Theorem str_starts_prefix (s ss : list byte) :
  (exists b, str_starts s ss = Some b) /\
  (str_starts s ss = Some true <-> exists t, s = ss ++ t) /\
  str_starts s [] = Some true /\
  ((length s < length ss)%nat -> str_starts s ss = Some false).
Proof.
  split; [|split; [|split]].
  - rewrite str_starts_eval. eauto.
  - apply str_starts_true_iff.
  - apply str_starts_true_iff. now exists s.
  - intros Hlt. rewrite str_starts_eval.
    destruct (Z.geb_spec (Z.of_nat (length s)) (Z.of_nat (length ss)));
      [lia|reflexivity].
Qed.

(** X8: on texts that fit a [size_t], [str_ends] never lets
    [std::out_of_range] escape, and answers true exactly when the text ends
    with the pattern; it is true for the empty pattern and false for a
    pattern longer than the text. *)
Theorem str_ends_suffix (s ss : list byte) :
  Z.of_nat (length s) <= SIZE_MAX ->
  (exists b, str_ends s ss = Some b) /\
  (str_ends s ss = Some true <-> exists t, s = t ++ ss) /\
  str_ends s [] = Some true /\
  ((length s < length ss)%nat -> str_ends s ss = Some false).
Proof.
  intros Hsz. split; [|split; [|split]].
  - rewrite str_ends_eval by exact Hsz. eauto.
  - now apply str_ends_true_iff.
  - apply str_ends_true_iff; [exact Hsz|]. exists s. now rewrite app_nil_r.
  - intros Hlt. rewrite str_ends_eval by exact Hsz.
    destruct (Z.geb_spec (Z.of_nat (length s)) (Z.of_nat (length ss)));
      [lia|reflexivity].
Qed.

Lemma sv_find_from_spec (ss : list byte) : forall (s : list byte) (i : Z),
  (exists a b, sv_find_from i s ss = i + Z.of_nat (length a) /\
               s = a ++ ss ++ b /\
               forall a' b', s = a' ++ ss ++ b' ->
                             (length a <= length a')%nat) \/
  (sv_find_from i s ss = npos /\ forall a b, s <> a ++ ss ++ b).
Proof.
  induction s as [|c s IH]; intros i; cbn [sv_find_from].
  - destruct (is_prefix ss []) eqn:E.
    + left. apply is_prefix_iff in E as [t Ht]. exists [], t.
      split; [simpl; lia|]. split; [exact Ht|]. intros; simpl; lia.
    + right. split; [reflexivity|]. intros a b H.
      symmetry in H. apply app_eq_nil in H as [-> H].
      apply app_eq_nil in H as [-> ->]. discriminate.
  - destruct (is_prefix ss (c :: s)) eqn:E.
    + left. apply is_prefix_iff in E as [t Ht]. exists [], t.
      split; [simpl; lia|]. split; [exact Ht|]. intros; simpl; lia.
    + assert (Hno : forall b, c :: s <> ss ++ b).
      { intros b H. rewrite H, is_prefix_app in E. discriminate. }
      destruct (IH (i + 1)) as [(a & b & Hf & Hs & Hmin)|[Hf Hnone]].
      * left. exists (c :: a), b. split; [rewrite Hf; simpl length; lia|].
        split; [now rewrite Hs|].
        intros [|c' a'] b' H; [now apply Hno in H|].
        injection H as _ H. apply Hmin in H. simpl. lia.
      * right. split; [exact Hf|].
        intros [|c' a] b H; [now apply Hno in H|].
        injection H as _ H. now apply Hnone in H.
Qed.

Lemma str_contains_true_iff (s ss : list byte) :
  Z.of_nat (length s) < SIZE_MAX ->
  str_contains s ss = true <-> exists a b, s = a ++ ss ++ b.
Proof.
  intros Hsz. unfold str_contains, sv_find.
  rewrite negb_true_iff, Z.eqb_neq.
  destruct (sv_find_from_spec ss s 0) as [(a & b & Hf & Hs & _)|[Hf Hnone]].
  - split; [eauto|]. intros _. rewrite Hf. unfold npos.
    apply (f_equal length) in Hs. rewrite length_app in Hs. lia.
  - split; [congruence|]. intros (a & b & H). now apply Hnone in H.
Qed.

(** X9: on texts shorter than [npos], [str_contains] answers true exactly
    when the pattern occurs somewhere in the text; the empty pattern occurs
    in every text, also in the empty one. *)
Theorem str_contains_infix (s ss : list byte) :
  Z.of_nat (length s) < SIZE_MAX ->
  (str_contains s ss = true <-> exists a b, s = a ++ ss ++ b) /\
  str_contains s [] = true.
Proof.
  intros Hsz. split; [now apply str_contains_true_iff|].
  apply str_contains_true_iff; [exact Hsz|]. exists [], s. reflexivity.
Qed.

(** X10: a text that starts or ends with a pattern contains it, and every
    text starts and ends with itself. *)
Theorem str_starts_ends_contains (s ss : list byte) :
  Z.of_nat (length s) < SIZE_MAX ->
  (str_starts s ss = Some true -> str_contains s ss = true) /\
  (str_ends s ss = Some true -> str_contains s ss = true) /\
  str_starts s s = Some true /\
  str_ends s s = Some true.
Proof.
  intros Hsz.
  assert (Hsz' : Z.of_nat (length s) <= SIZE_MAX) by lia.
  split; [|split; [|split]].
  - intros H. apply str_starts_true_iff in H as [t ->].
    apply str_contains_true_iff; [exact Hsz|]. exists [], t. reflexivity.
  - intros H. apply (str_ends_true_iff _ _ Hsz') in H as [t ->].
    apply str_contains_true_iff; [exact Hsz|]. exists t, [].
    now rewrite app_nil_r.
  - apply str_starts_true_iff. exists []. now rewrite app_nil_r.
  - apply (str_ends_true_iff _ _ Hsz'). exists []. reflexivity.
Qed.

(** ** Trimming *)

Lemma find_if_le {T} (p : T -> bool) (l : list T) :
  (find_if p l <= length l)%nat.
Proof. induction l as [|x l IH]; simpl; [lia|]. destruct (p x); lia. Qed.

Lemma find_if_take {T} (p : T -> bool) (l : list T) :
  Forall (fun x => p x = false) (take (find_if p l) l).
Proof.
  induction l as [|x l IH]; simpl; [constructor|].
  destruct (p x) eqn:E; simpl; [constructor|]. now constructor.
Qed.

Lemma find_if_drop {T} (p : T -> bool) (l : list T) :
  match drop (find_if p l) l with
  | [] => True
  | x :: _ => p x = true
  end.
Proof.
  induction l as [|x l IH]; simpl; [exact I|].
  destruct (p x) eqn:E; simpl; [exact E | exact IH].
Qed.

Lemma find_if_app_skip {T} (p : T -> bool) (a l : list T) :
  Forall (fun x => p x = false) a ->
  find_if p (a ++ l) = (length a + find_if p l)%nat.
Proof.
  induction 1 as [|x a Hx _ IH]; simpl; [reflexivity|].
  now rewrite Hx, IH.
Qed.

Lemma find_if_head {T} (p : T -> bool) (x : T) (l : list T) :
  p x = true -> find_if p (x :: l) = O.
Proof. intros H. simpl. now rewrite H. Qed.

Section TrimFacts.
Variable isspace : byte -> bool.

(** The characters that [rtrim] stops at. *)
Local Abbreviation kept :=
  (fun ch : byte => negb (isspace ch) && negb (Byte.eqb ch NUL)).

Lemma kept_false_iff (c : byte) :
  kept c = false <-> isspace c = true \/ c = NUL.
Proof.
  rewrite andb_false_iff, !negb_false_iff, byte_eqb_eq. tauto.
Qed.

Lemma kept_true_iff (c : byte) :
  kept c = true <-> isspace c = false /\ c <> NUL.
Proof.
  rewrite andb_true_iff, !negb_true_iff.
  split; intros [H1 H2]; split; try exact H1.
  - intros ->. now rewrite byte_eqb_refl in H2.
  - destruct (Byte.eqb c NUL) eqn:E; [|reflexivity].
    apply byte_eqb_eq in E. contradiction.
Qed.

Lemma rtrim_rev (s : list byte) :
  rtrim isspace s = rev (drop (find_if kept (rev s)) (rev s)).
Proof.
  unfold rtrim. rewrite skipn_rev, rev_involutive. reflexivity.
Qed.

Lemma ltrim_skip (pre s : list byte) :
  Forall (fun c => isspace c = true) pre ->
  ltrim isspace (pre ++ s) = ltrim isspace s.
Proof.
  intros Hpre. unfold ltrim. rewrite find_if_app_skip.
  - apply drop_app_add.
  - eapply Forall_impl; [exact Hpre|]. intros c Hc. simpl. now rewrite Hc.
Qed.

Lemma ltrim_fixed (s : list byte) :
  match s with [] => True | c :: _ => isspace c = false end ->
  ltrim isspace s = s.
Proof.
  destruct s as [|c s]; [reflexivity|]. intros Hc.
  unfold ltrim. rewrite find_if_head; [reflexivity|]. now rewrite Hc.
Qed.

Lemma rtrim_skip (s post : list byte) :
  Forall (fun c => isspace c = true \/ c = NUL) post ->
  rtrim isspace (s ++ post) = rtrim isspace s.
Proof.
  intros Hpost. unfold rtrim. rewrite rev_app_distr, find_if_app_skip.
  - rewrite length_app, length_rev.
    replace (length s + length post
             - (length post + find_if kept (rev s)))%nat
      with (length s - find_if kept (rev s))%nat by lia.
    apply take_app_le. lia.
  - apply Forall_rev. eapply Forall_impl; [exact Hpost|].
    intros c Hc. now apply kept_false_iff.
Qed.

Lemma rtrim_fixed (r : list byte) (c : byte) :
  isspace c = false -> c <> NUL ->
  rtrim isspace (r ++ [c]) = r ++ [c].
Proof.
  intros Hs Hn. unfold rtrim. rewrite rev_app_distr. cbn [rev app].
  rewrite find_if_head by (apply kept_true_iff; tauto).
  rewrite Nat.sub_0_r. apply take_ge. lia.
Qed.

Lemma ltrim_decompose (s : list byte) :
  exists pre,
    s = pre ++ ltrim isspace s /\
    Forall (fun c => isspace c = true) pre /\
    match ltrim isspace s with
    | [] => True
    | c :: _ => isspace c = false
    end.
Proof.
  exists (take (find_if (fun ch => negb (isspace ch)) s) s).
  split; [symmetry; apply take_drop|]. split.
  - eapply Forall_impl; [apply find_if_take|].
    intros c Hc. simpl in Hc. now apply negb_false_iff in Hc.
  - unfold ltrim.
    pose proof (find_if_drop (fun ch => negb (isspace ch)) s) as H.
    destruct (drop _ s) as [|c r]; [exact I|]. now apply negb_true_iff in H.
Qed.

Lemma rtrim_decompose (s : list byte) :
  exists post,
    s = rtrim isspace s ++ post /\
    Forall (fun c => isspace c = true \/ c = NUL) post /\
    (rtrim isspace s = [] \/
     exists r c, rtrim isspace s = r ++ [c] /\ isspace c = false /\ c <> NUL).
Proof.
  exists (rev (take (find_if kept (rev s)) (rev s))).
  rewrite rtrim_rev. split; [|split].
  - rewrite <- rev_app_distr, take_drop. now rewrite rev_involutive.
  - apply Forall_rev. eapply Forall_impl; [apply find_if_take|].
    intros c Hc. now apply kept_false_iff.
  - pose proof (find_if_drop kept (rev s)) as H.
    destruct (drop _ (rev s)) as [|c r]; [now left|].
    right. exists (rev r), c. split; [reflexivity|].
    now apply kept_true_iff.
Qed.

(** X11: [ltrim] removes exactly the leading spaces: the text is a run of
    spaces followed by the result, and the result is empty or begins with a
    character that is not a space. *)
Theorem ltrim_strips_leading_spaces (s : list byte) :
  exists pre,
    s = pre ++ ltrim isspace s /\
    Forall (fun c => isspace c = true) pre /\
    match ltrim isspace s with
    | [] => True
    | c :: _ => isspace c = false
    end.
Proof. apply ltrim_decompose. Qed.

(** X12: [rtrim] removes exactly the trailing spaces and terminators: the
    text is the result followed by a run of spaces and ['\0'] bytes, and
    the result is empty or ends with a character that is neither. *)
Theorem rtrim_strips_trailing_spaces_and_nul (s : list byte) :
  exists post,
    s = rtrim isspace s ++ post /\
    Forall (fun c => isspace c = true \/ c = NUL) post /\
    (rtrim isspace s = [] \/
     exists r c, rtrim isspace s = r ++ [c] /\ isspace c = false /\ c <> NUL).
Proof. apply rtrim_decompose. Qed.

Lemma ltrim_idem (s : list byte) :
  ltrim isspace (ltrim isspace s) = ltrim isspace s.
Proof.
  destruct (ltrim_decompose s) as (pre & _ & _ & Hhead).
  now apply ltrim_fixed.
Qed.

Lemma rtrim_idem (s : list byte) :
  rtrim isspace (rtrim isspace s) = rtrim isspace s.
Proof.
  destruct (rtrim_decompose s) as (post & _ & _ & [E|(r & c & E & Hs & Hn)]).
  - rewrite E. reflexivity.
  - rewrite E. now apply rtrim_fixed.
Qed.

Lemma rtrim_all_dropped (s : list byte) :
  Forall (fun c => isspace c = true \/ c = NUL) s -> rtrim isspace s = [].
Proof. intros H. now rewrite <- (app_nil_l s), rtrim_skip. Qed.

(** X13: trimming twice on the same side changes nothing more, and the two
    sides can be trimmed in either order. *)
Theorem trim_idempotent_commute (s : list byte) :
  ltrim isspace (ltrim isspace s) = ltrim isspace s /\
  rtrim isspace (rtrim isspace s) = rtrim isspace s /\
  ltrim isspace (rtrim isspace s) = rtrim isspace (ltrim isspace s).
Proof.
  split; [apply ltrim_idem|]. split; [apply rtrim_idem|].
  destruct (ltrim_decompose s) as (pre & Hs & Hpre & Hhead).
  destruct (rtrim_decompose (ltrim isspace s))
    as (post & Hm & Hpost & Hlast).
  set (m := ltrim isspace s) in *. set (k := rtrim isspace m) in *.
  assert (Hrs : rtrim isspace s = rtrim isspace (pre ++ k)).
  { rewrite Hs, Hm, app_assoc. now apply rtrim_skip. }
  rewrite Hrs.
  destruct Hlast as [E|(r & c & E & Hc & Hn)].
  - rewrite E, app_nil_r. rewrite rtrim_all_dropped; [reflexivity|].
    eapply Forall_impl; [exact Hpre|]. intros; now left.
  - rewrite E, app_assoc, rtrim_fixed by assumption.
    rewrite <- app_assoc, ltrim_skip by exact Hpre.
    apply ltrim_fixed. rewrite <- E.
    destruct k as [|c0 k']; [exact I|].
    rewrite Hm in Hhead. exact Hhead.
Qed.

(** X14: where ['\0'] is not a space, a leading ['\0'] stops [ltrim], which
    keeps it, while [rtrim] strips a trailing ['\0'] and goes on. *)
Theorem trim_nul_asymmetry (s : list byte) :
  isspace NUL = false ->
  ltrim isspace (NUL :: s) = NUL :: s /\
  rtrim isspace (s ++ [NUL]) = rtrim isspace s.
Proof.
  intros Hnul. split.
  - now apply ltrim_fixed.
  - apply rtrim_skip. constructor; [now right | constructor].
Qed.

End TrimFacts.

Lemma trim_nul_asymmetry_witness :
  isspace_C NUL = false /\
  ltrim isspace_C (NUL :: list_byte_of_string " a ")
    = NUL :: list_byte_of_string " a " /\
  rtrim isspace_C (list_byte_of_string " a " ++ [NUL])
    = rtrim isspace_C (list_byte_of_string " a ").
Proof.
  split; [reflexivity|].
  exact (trim_nul_asymmetry isspace_C (list_byte_of_string " a ") eq_refl).
Defined.

(** ** mutex_guard *)

Lemma unlock_times_released (k : nat) (log : list mutex_event) :
  unlock_times k ({| mutex := nullptr |}, log)
    = ({| mutex := nullptr |}, log ++ replicate k (Unlock nullptr)).
Proof.
  revert log. induction k as [|k IH]; intros log.
  - cbn [unlock_times replicate]. now rewrite app_nil_r.
  - cbn [unlock_times fst snd replicate]. unfold unlock. cbn [mutex].
    rewrite IH, <- app_assoc. reflexivity.
Qed.

(** X15: a guard on a mutex [m] locks it once and unlocks it exactly once,
    whether [unlock()] is called or the guard just goes out of scope; every
    [unlock()] after the first hands a null pointer to
    [pthread_mutex_unlock]. *)
Theorem mutex_guard_unlocks_once (m : ptr) (k : nat) :
  m <> nullptr ->
  guarded_scope m k
    = [Lock m; Unlock m] ++ replicate (k - 1) (Unlock nullptr).
Proof.
  intros Hm. unfold guarded_scope, mutex_guard_new.
  destruct k as [|k].
  - cbn [unlock_times fst snd]. unfold mutex_guard_delete. cbn [mutex].
    destruct (Z.eqb_spec m nullptr); [contradiction|]. reflexivity.
  - cbn [unlock_times fst snd]. unfold unlock. cbn [mutex app].
    rewrite unlock_times_released.
    unfold mutex_guard_delete. cbn [fst snd mutex]. rewrite Z.eqb_refl.
    replace (S k - 1)%nat with k by lia. reflexivity.
Qed.

Lemma mutex_guard_unlocks_once_witness :
  4096 <> nullptr /\
  guarded_scope 4096 2 = [Lock 4096; Unlock 4096; Unlock nullptr].
Proof.
  assert (H : 4096 <> nullptr) by discriminate.
  split; [exact H|]. exact (mutex_guard_unlocks_once 4096 2 H).
Defined.

(** ** Views of C strings *)

Lemma strlen_sound (fuel : nat) : forall (m : mem) (s : ptr) (n : Z),
  strlen fuel m s = Some n ->
  0 <= n < Z.of_nat fuel /\
  m (s + n) = NUL /\
  ~ In NUL (load_bytes m s n).
Proof.
  induction fuel as [|fuel IH]; intros m s n H; [discriminate|].
  cbn [strlen] in H.
  destruct (Byte.eqb (m s) NUL) eqn:E.
  - injection H as <-. apply byte_eqb_eq in E.
    rewrite Z.add_0_r. repeat split; try lia; try exact E. intros [].
  - destruct (strlen fuel m (s + 1)) as [n'|] eqn:E'; [|discriminate].
    injection H as <-.
    destruct (IH _ _ _ E') as (Hn & Hnul & Hno).
    split; [lia|].
    split; [now replace (s + Z.succ n') with (s + 1 + n') by lia|].
    replace (Z.succ n') with (Z.of_nat (S (Z.to_nat n'))) by lia.
    rewrite load_bytes_succ, Z2Nat.id by lia.
    intros [Hhd|Htl]; [|contradiction].
    rewrite Hhd, byte_eqb_refl in E. discriminate.
Qed.

Lemma strlen_complete (k : nat) : forall (fuel : nat) (m : mem) (s : ptr),
  m (s + Z.of_nat k) = NUL ->
  (forall i, (i < k)%nat -> m (s + Z.of_nat i) <> NUL) ->
  (k < fuel)%nat ->
  strlen fuel m s = Some (Z.of_nat k).
Proof.
  induction k as [|k IH]; intros fuel m s Hnul Hno Hfuel;
    (destruct fuel as [|fuel]; [lia|]); cbn [strlen].
  - rewrite Z.add_0_r in Hnul. now rewrite Hnul, byte_eqb_refl.
  - destruct (Byte.eqb (m s) NUL) eqn:E.
    + apply byte_eqb_eq in E. exfalso. apply (Hno O); [lia|].
      now rewrite Z.add_0_r.
    + rewrite (IH fuel m (s + 1)).
      * cbn [option_map]. f_equal. lia.
      * now replace (s + 1 + Z.of_nat k) with (s + Z.of_nat (S k)) by lia.
      * intros i Hi.
        replace (s + 1 + Z.of_nat i) with (s + Z.of_nat (S i)) by lia.
        apply Hno. lia.
      * lia.
Qed.

Lemma load_bytes_snoc (m : mem) (p : ptr) (k : nat) :
  load_bytes m p (Z.of_nat (S k))
    = load_bytes m p (Z.of_nat k) ++ [m (p + Z.of_nat k)].
Proof.
  unfold load_bytes. rewrite !Nat2Z.id, seq_S, map_app. reflexivity.
Qed.

(** X16: the view built from a C string with the default option covers the
    text and its terminator: its bytes are the text, free of ['\0'],
    followed by one ['\0']; with the option off it covers the text alone
    and the terminator is the byte right after it. *)
Theorem byte_view_of_cstr_bytes (fuel : nat) (m : mem) (s : ptr)
    (v : byte_view) (with_nul : bool) :
  Z.of_nat fuel <= SIZE_MAX ->
  byte_view_of_cstr fuel m s with_nul = Some v ->
  exists text,
    ~ In NUL text /\
    _buf v = s /\
    m (s + Z.of_nat (length text)) = NUL /\
    view_bytes m v = (if with_nul then text ++ [NUL] else text) /\
    _sz v = Z.of_nat (length text) + (if with_nul then 1 else 0).
Proof.
  intros Hfuel. unfold byte_view_of_cstr, string_view_of_cstr.
  destruct (strlen fuel m s) as [n|] eqn:E; [|discriminate].
  cbn [option_map]. intros [= <-].
  destruct (strlen_sound _ _ _ _ E) as (Hn & Hnul & Hno).
  exists (load_bytes m s n).
  assert (Hlen : Z.of_nat (length (load_bytes m s n)) = n)
    by (rewrite load_bytes_length; lia).
  rewrite Hlen. split; [exact Hno|].
  split; [apply byte_view_text_buf|]. split; [exact Hnul|].
  destruct with_nul.
  - unfold view_bytes, byte_view_text. cbn [andb _buf _sz byte_view_raw
      sv_data sv_length].
    rewrite size_add_one_small by lia. split; [|reflexivity].
    replace (n + 1) with (Z.of_nat (S (Z.to_nat n))) by lia.
    rewrite load_bytes_snoc, Z2Nat.id by lia. now rewrite Hnul.
  - unfold view_bytes, byte_view_text. cbn [_buf _sz byte_view_raw
      sv_data sv_length]. split; [reflexivity|lia].
Qed.

Lemma byte_view_of_cstr_bytes_witness :
  Z.of_nat 8 <= SIZE_MAX /\
  byte_view_of_cstr 8 mem_abc0 16 true = Some (mk_byte_view 16 4) /\
  exists text,
    ~ In NUL text /\
    _buf (mk_byte_view 16 4) = 16 /\
    mem_abc0 (16 + Z.of_nat (length text)) = NUL /\
    view_bytes mem_abc0 (mk_byte_view 16 4) = text ++ [NUL] /\
    _sz (mk_byte_view 16 4) = Z.of_nat (length text) + 1.
Proof.
  assert (H : Z.of_nat 8 <= SIZE_MAX) by (unfold SIZE_MAX; lia).
  split; [exact H|]. split; [reflexivity|].
  exact (byte_view_of_cstr_bytes 8 mem_abc0 16 (mk_byte_view 16 4) true
           H eq_refl).
Defined.

(** X17: when the text at [s] has its first ['\0'] at offset [k], every
    scan of more than [k] bytes builds the view: it starts at [s] and has
    length [k], plus one with the terminator option. *)
Theorem byte_view_of_cstr_terminates (m : mem) (s : ptr) (k fuel : nat)
    (with_nul : bool) :
  m (s + Z.of_nat k) = NUL ->
  (forall i, (i < k)%nat -> m (s + Z.of_nat i) <> NUL) ->
  (k < fuel)%nat ->
  byte_view_of_cstr fuel m s with_nul =
    Some {| _buf := s;
            _sz := if with_nul then size_add (Z.of_nat k) 1
                   else Z.of_nat k |}.
Proof.
  intros Hnul Hno Hfuel. unfold byte_view_of_cstr, string_view_of_cstr.
  rewrite (strlen_complete k fuel m s Hnul Hno Hfuel).
  destruct with_nul; reflexivity.
Qed.

Lemma byte_view_of_cstr_terminates_witness :
  mem_abc0 (16 + Z.of_nat 3) = NUL /\
  (forall i, (i < 3)%nat -> mem_abc0 (16 + Z.of_nat i) <> NUL) /\
  (3 < 5)%nat /\
  byte_view_of_cstr 5 mem_abc0 16 true = Some (mk_byte_view 16 4).
Proof.
  assert (H1 : mem_abc0 (16 + Z.of_nat 3) = NUL) by reflexivity.
  assert (H2 : forall i, (i < 3)%nat -> mem_abc0 (16 + Z.of_nat i) <> NUL).
  { intros i Hi.
    destruct i as [|[|[|i]]]; [discriminate | discriminate | discriminate | lia]. }
  assert (H3 : (3 < 5)%nat) by lia.
  split; [exact H1|]. split; [exact H2|]. split; [exact H3|].
  exact (byte_view_of_cstr_terminates mem_abc0 16 3 5 true H1 H2 H3).
Defined.

(** ** Witnesses for the bitset and string properties *)

Lemma bitset_assign_read_witness :
  (70 <> 3)%nat /\
  get_const 8 (bitset_assign 8 dynamic_bitset_empty 3 true) 70
    = get_const 8 dynamic_bitset_empty 70.
Proof.
  assert (H : (70 <> 3)%nat) by discriminate.
  split; [exact H|].
  exact (proj1 (proj2 (bitset_assign_read 8 dynamic_bitset_empty 3 true))
           70%nat H).
Defined.

Lemma get_slot_bits_witness :
  (5 < slot_size 8)%nat /\
  Z.testbit (get_slot (emplace_back 8 dynamic_bitset_empty 33) 0)
            (Z.of_nat 5)
    = get_const 8 (emplace_back 8 dynamic_bitset_empty 33)
                (0 * slot_size 8 + 5).
Proof.
  assert (H : (5 < slot_size 8)%nat) by (vm_compute; lia).
  split; [exact H|].
  exact (proj1 (get_slot_bits 8 (emplace_back 8 dynamic_bitset_empty 33)
                  0%nat) 5%nat H).
Defined.

Lemma emplace_back_bits_witness :
  (5 < slot_size 8)%nat /\
  get_const 8 (emplace_back 8 dynamic_bitset_empty 33)
            (slots dynamic_bitset_empty * slot_size 8 + 5)
    = Z.testbit 33 (Z.of_nat 5).
Proof.
  assert (H : (5 < slot_size 8)%nat) by (vm_compute; lia).
  split; [exact H|].
  exact (proj1 (proj2 (proj2 (emplace_back_bits 8 dynamic_bitset_empty 33)))
           5%nat H).
Defined.

Lemma slots_stay_in_range_witness :
  slots_in_range 8 dynamic_bitset_empty /\
  slots_in_range 8 (bitset_assign 8 dynamic_bitset_empty 70 true).
Proof.
  assert (H : slots_in_range 8 dynamic_bitset_empty) by constructor.
  split; [exact H|].
  exact (proj2 (proj2 (proj2 (slots_stay_in_range 8 dynamic_bitset_empty H)))
           70%nat true).
Defined.

Lemma str_starts_prefix_witness :
  (length (list_byte_of_string "ab") < length (list_byte_of_string "abc"))%nat
  /\
  str_starts (list_byte_of_string "ab") (list_byte_of_string "abc")
    = Some false.
Proof.
  assert (H : (length (list_byte_of_string "ab")
               < length (list_byte_of_string "abc"))%nat) by (simpl; lia).
  split; [exact H|].
  exact (proj2 (proj2 (proj2
           (str_starts_prefix (list_byte_of_string "ab")
              (list_byte_of_string "abc")))) H).
Defined.

Lemma str_ends_suffix_witness :
  Z.of_nat (length (list_byte_of_string "abc")) <= SIZE_MAX /\
  str_ends (list_byte_of_string "abc") [] = Some true.
Proof.
  assert (H : Z.of_nat (length (list_byte_of_string "abc")) <= SIZE_MAX)
    by (vm_compute; discriminate).
  split; [exact H|].
  exact (proj1 (proj2 (proj2
           (str_ends_suffix (list_byte_of_string "abc")
              (list_byte_of_string "bc") H)))).
Defined.

Lemma str_contains_infix_witness :
  Z.of_nat (length (list_byte_of_string "abc")) < SIZE_MAX /\
  str_contains (list_byte_of_string "abc") [] = true.
Proof.
  assert (H : Z.of_nat (length (list_byte_of_string "abc")) < SIZE_MAX)
    by reflexivity.
  split; [exact H|].
  exact (proj2 (str_contains_infix (list_byte_of_string "abc")
                  (list_byte_of_string "b") H)).
Defined.

Lemma str_starts_ends_contains_witness :
  Z.of_nat (length (list_byte_of_string "abc")) < SIZE_MAX /\
  str_ends (list_byte_of_string "abc") (list_byte_of_string "abc")
    = Some true.
Proof.
  assert (H : Z.of_nat (length (list_byte_of_string "abc")) < SIZE_MAX)
    by reflexivity.
  split; [exact H|].
  exact (proj2 (proj2 (proj2
           (str_starts_ends_contains (list_byte_of_string "abc")
              (list_byte_of_string "bc") H)))).
Defined.
